(** * midikit: the MIDI value macros and the reference-counted list

    A shallow embedding of [src/midi/midi.h] (value macros, precondition
    macros, error number) and of [src/midi/list.c] (the generic list
    container), followed by models of the network driver components. *)

From Stdlib Require Import ZArith List Lia Bool String.
From stdpp Require Import gmap list.

Local Open Scope Z_scope.

(** ** midi.h: nibble and 14-bit value macros

    The operands of the C macros are promoted to [int]; on the value
    ranges of the MIDI types no operation overflows, so the macros are
    written over [Z] with the bit operations of the source. *)

Module Midi.

(** [#define MIDI_NIBBLE_VALUE( h, l ) ( ((h)<<4)|((l)&0xf) )].
    The shift is a shift of [int]: the definition is the value of the C
    expression for 0 <= h < 2^27, where [h << 4] does not overflow, and
    the properties below are stated within that range. *)
Definition MIDI_NIBBLE_VALUE (h l : Z) : Z :=
  Z.lor (Z.shiftl h 4) (Z.land l 0xf).

(** [#define MIDI_HIGH_NIBBLE( b ) (((b)>>4)&0xf)] *)
Definition MIDI_HIGH_NIBBLE (b : Z) : Z := Z.land (Z.shiftr b 4) 0xf.

(** [#define MIDI_LOW_NIBBLE( b ) ((b)&0xf)] *)
Definition MIDI_LOW_NIBBLE (b : Z) : Z := Z.land b 0xf.

(** [#define MIDI_LONG_VALUE( m, l ) (((m & 0x7f)<<7) | (l & 0x7f))] *)
Definition MIDI_LONG_VALUE (m l : Z) : Z :=
  Z.lor (Z.shiftl (Z.land m 0x7f) 7) (Z.land l 0x7f).

(** [#define MIDI_LSB( v )  (v)     & 0x7f] *)
Definition MIDI_LSB (v : Z) : Z := Z.land v 0x7f.

(** [#define MIDI_MSB( v ) ((v)>>7) & 0x7f] *)
Definition MIDI_MSB (v : Z) : Z := Z.land (Z.shiftr v 7) 0x7f.

(** [#define MIDI_BOOL( v ) (((v)>=64) ? MIDI_ON : MIDI_OFF)] *)
Definition MIDI_ON : Z := 0x7f.
Definition MIDI_OFF : Z := 0x00.
Definition MIDI_BOOL (v : Z) : Z := if Z.leb 64 v then MIDI_ON else MIDI_OFF.

(** Status values of the channel voice messages ("Status has 4 bits & is
    followed by a 4 bit channel number") and the first of the system
    messages ("Status has eight bits"). *)
Definition MIDI_STATUS_NOTE_OFF : Z := 0x8.
Definition MIDI_STATUS_NOTE_ON : Z := 0x9.
Definition MIDI_STATUS_POLYPHONIC_KEY_PRESSURE : Z := 0xa.
Definition MIDI_STATUS_CONTROL_CHANGE : Z := 0xb.
Definition MIDI_STATUS_PROGRAM_CHANGE : Z := 0xc.
Definition MIDI_STATUS_CHANNEL_PRESSURE : Z := 0xd.
Definition MIDI_STATUS_PITCH_WHEEL_CHANGE : Z := 0xe.
Definition MIDI_STATUS_SYSTEM_EXCLUSIVE : Z := 0xf0.

(** Channel enumeration values: the sixteen channels are 0x0 to 0xf; the
    base channel of a device and "all channels" lie above them. *)
Definition MIDI_CHANNEL_1 : Z := 0x0.
Definition MIDI_CHANNEL_16 : Z := 0xf.
Definition MIDI_CHANNEL_BASE : Z := 0x10.
Definition MIDI_CHANNEL_ALL : Z := 0x1f.

End Midi.

(** ** midi.h: error numbers, logger and precondition macros

    [<errno.h>] is a system header; its constants are taken as an
    interface.  POSIX requires every error number to be a positive
    [int]. *)

Class Errno := {
  ENOMEM : Z;
  EFAULT : Z;
  EINVAL : Z;
  ENOMEM_pos : 0 < ENOMEM;
  EFAULT_pos : 0 < EFAULT;
  EINVAL_pos : 0 < EINVAL
}.

(** The values of Linux ([asm-generic/errno-base.h]). *)
#[refine] Instance linux_errno : Errno :=
  {| ENOMEM := 12; EFAULT := 14; EINVAL := 22 |}.
Proof. all: reflexivity. Defined.

(** ** list.c

    The functions are those of the default build, in which none of
    [NO_PRECOND], [NO_ERROR] and [NO_LOG] is defined. *)

Module MIDIListC.

(** Pointers are addresses; [NULL] is address 0.  Items and hook
    functions are opaque to the list, only their addresses matter. *)
Definition ptr := Z.
Definition NULL : ptr := 0.

Definition INT_MAX : Z := 2 ^ 31 - 1.
Definition INT_MIN : Z := - 2 ^ 31.

(** [struct MIDIList].  The chain of [struct MIDIListEntry] nodes hanging
    off [data] is owned by the list alone (no entry is ever shared or
    reachable from outside list.c), so it is kept as the sequence of the
    [item] fields, head of the chain first. *)
Record MIDIList := mkMIDIList {
  refs : Z;
  retain : ptr;
  release : ptr;
  data : list ptr
}.

(** A call through one of the hooks of a list:
    [list->retain( item )] or [list->release( item )], recorded
    with the list on whose behalf it is made and the function called.
    What the hook does to the item is its own business; it is taken not
    to call back into list.c. *)
Inductive event :=
| EvRetain (lst fn item : ptr)
| EvRelease (lst fn item : ptr).

(** The process: the global [MIDIErrorNumber], the global [MIDILogger]
    with the lines handed to it, the allocated [struct MIDIList] blocks,
    the next fresh block address (block addresses are not reused), and
    the hook calls made so far. *)
Record World := mkWorld {
  MIDIErrorNumber : Z;
  MIDILogger : ptr;
  logged : list string;
  heap : gmap Z MIDIList;
  brk : Z;
  calls : list event
}.

Definition set_errno (e : Z) (w : World) : World :=
  mkWorld e (MIDILogger w) (logged w) (heap w) (brk w) (calls w).
Definition add_log (s : string) (w : World) : World :=
  mkWorld (MIDIErrorNumber w) (MIDILogger w) (logged w ++ [s]) (heap w) (brk w) (calls w).
Definition set_heap (h : gmap Z MIDIList) (w : World) : World :=
  mkWorld (MIDIErrorNumber w) (MIDILogger w) (logged w) h (brk w) (calls w).
Definition set_brk (b : Z) (w : World) : World :=
  mkWorld (MIDIErrorNumber w) (MIDILogger w) (logged w) (heap w) b (calls w).
Definition add_call (e : event) (w : World) : World :=
  mkWorld (MIDIErrorNumber w) (MIDILogger w) (logged w) (heap w) (brk w) (calls w ++ [e]).

(** What a call does: it returns a value in a new world, or its
    behaviour is undefined in C (a [NULL] or dangling pointer is
    dereferenced, or a signed [int] overflows). *)
Inductive outcome (A : Type) :=
| Returns (v : A) (w : World)
| Undefined.
Arguments Returns {A} v w.
Arguments Undefined {A}.

(** [malloc]: whether it succeeds is not in the program's hands ([ok]);
    on success it hands out the next fresh block, on failure [NULL]. *)
Definition malloc (ok : bool) (w : World) : ptr * World :=
  if ok then (brk w, set_brk (brk w + 1) w) else (NULL, w).

(** [MIDILog( ERROR, ... )]: the line goes to [MIDILogger] when one is
    installed. *)
Definition MIDILogLocation (msg : string) (w : World) : World :=
  if decide (MIDILogger w ≠ NULL) then add_log msg w else w.

(** [MIDIPrecondFailed( message, kind, retval )]:
    [MIDIErrorNumber = kind; MIDILogLocation( ERROR, ... ); return retval;] *)
Definition MIDIPrecondFailed {A} (message : string) (kind : Z) (retval : A)
    (w : World) : outcome A :=
  Returns retval (MIDILogLocation message (set_errno kind w)).

Section Functions.
Context `{Errno}.

(** [_list_item_retain]: [if( item != NULL && list->retain != NULL )]
    call the hook. *)
Definition _list_item_retain (lst : ptr) (l : MIDIList) (item : ptr)
    (w : World) : World :=
  if decide (item ≠ NULL ∧ retain l ≠ NULL)
  then add_call (EvRetain lst (retain l) item) w else w.

(** [_list_item_release]. *)
Definition _list_item_release (lst : ptr) (l : MIDIList) (item : ptr)
    (w : World) : World :=
  if decide (item ≠ NULL ∧ release l ≠ NULL)
  then add_call (EvRelease lst (release l) item) w else w.

(** [MIDIListCreate( retain, release )]. *)
Definition MIDIListCreate (ok : bool) (retain_ release_ : ptr) (w : World)
    : outcome ptr :=
  let (lst, w1) := malloc ok w in
  if decide (lst ≠ NULL) then
    Returns lst (set_heap (<[lst := mkMIDIList 1 retain_ release_ []]> (heap w1)) w1)
  else
    MIDIPrecondFailed "[ENOMEM] Precondition failed (list != NULL)" ENOMEM NULL w1.

(** The loop of [MIDIListDestroy]: release the item of every entry, head
    first, and free the entry. *)
Fixpoint destroy_entries (lst : ptr) (l : MIDIList) (entry : list ptr)
    (w : World) : World :=
  match entry with
  | [] => w
  | item :: next => destroy_entries lst l next (_list_item_release lst l item w)
  end.

(** [MIDIListDestroy( list )]. *)
Definition MIDIListDestroy (lst : ptr) (w : World) : outcome unit :=
  if decide (lst ≠ NULL) then
    match heap w !! lst with
    | Some l =>
        let w1 := destroy_entries lst l (data l) w in
        Returns tt (set_heap (delete lst (heap w1)) w1)
    | None => Undefined
    end
  else MIDIPrecondFailed "[EFAULT] Precondition failed (list != NULL)" EFAULT tt w.

(** [MIDIListRetain( list )]: [list->refs++]. *)
Definition MIDIListRetain (lst : ptr) (w : World) : outcome unit :=
  if decide (lst ≠ NULL) then
    match heap w !! lst with
    | Some l =>
        if decide (refs l < INT_MAX) then
          Returns tt (set_heap
            (<[lst := mkMIDIList (refs l + 1) (retain l) (release l) (data l)]> (heap w)) w)
        else Undefined
    | None => Undefined
    end
  else MIDIPrecondFailed "[EFAULT] Precondition failed (list != NULL)" EFAULT tt w.

(** [MIDIListRelease( list )]: [if( ! --list->refs ) MIDIListDestroy( list )]. *)
Definition MIDIListRelease (lst : ptr) (w : World) : outcome unit :=
  if decide (lst ≠ NULL) then
    match heap w !! lst with
    | Some l =>
        if decide (INT_MIN < refs l) then
          let w1 := set_heap
            (<[lst := mkMIDIList (refs l - 1) (retain l) (release l) (data l)]> (heap w)) w in
          if decide (refs l - 1 = 0) then MIDIListDestroy lst w1 else Returns tt w1
        else Undefined
    | None => Undefined
    end
  else MIDIPrecondFailed "[EFAULT] Precondition failed (list != NULL)" EFAULT tt w.

(** [MIDIListAdd( list, item )].  The result of [malloc] is stored into
    without a test, so a failed allocation dereferences [NULL]. *)
Definition MIDIListAdd (ok : bool) (lst item : ptr) (w : World) : outcome Z :=
  if decide (lst ≠ NULL) then
    if decide (item ≠ NULL) then
      let (entry, w1) := malloc ok w in
      if decide (entry ≠ NULL) then
        match heap w1 !! lst with
        | Some l =>
            let w2 := _list_item_retain lst l item w1 in
            Returns 0 (set_heap
              (<[lst := mkMIDIList (refs l) (retain l) (release l) (item :: data l)]> (heap w2)) w2)
        | None => Undefined
        end
      else Undefined
    else MIDIPrecondFailed "[EINVAL] Precondition failed (item != NULL)" EINVAL EINVAL w
  else MIDIPrecondFailed "[EFAULT] Precondition failed (list != NULL)" EFAULT EFAULT w.

(** The loop of [MIDIListRemove]: an entry holding [item] is released,
    unlinked through [*eptr] and freed; any other entry is stepped over
    and stays linked.  Returns the chain that remains. *)
Fixpoint remove_entries (lst : ptr) (l : MIDIList) (item : ptr)
    (entry : list ptr) (w : World) : list ptr * World :=
  match entry with
  | [] => ([], w)
  | e :: next =>
      if decide (e = item) then
        remove_entries lst l item next (_list_item_release lst l e w)
      else
        let (rest, w') := remove_entries lst l item next w in
        (e :: rest, w')
  end.

(** [MIDIListRemove( list, item )]. *)
Definition MIDIListRemove (lst item : ptr) (w : World) : outcome Z :=
  if decide (lst ≠ NULL) then
    if decide (item ≠ NULL) then
      match heap w !! lst with
      | Some l =>
          let (rest, w1) := remove_entries lst l item (data l) w in
          Returns 0 (set_heap
            (<[lst := mkMIDIList (refs l) (retain l) (release l) rest]> (heap w1)) w1)
      | None => Undefined
      end
    else MIDIPrecondFailed "[EINVAL] Precondition failed (item != NULL)" EINVAL EINVAL w
  else MIDIPrecondFailed "[EFAULT] Precondition failed (list != NULL)" EFAULT EFAULT w.

(** The loop of [MIDIListApply]: [result += func( item, info )] for
    every entry whose item is not [NULL].  [None] when the [int] sum
    overflows.  The callback is taken to be a function of its two
    arguments. *)
Fixpoint apply_entries (func : ptr -> ptr -> Z) (info : ptr)
    (entry : list ptr) (result : Z) : option Z :=
  match entry with
  | [] => Some result
  | item :: next =>
      if decide (item ≠ NULL) then
        let r := result + func item info in
        if decide (INT_MIN <= r <= INT_MAX) then apply_entries func info next r
        else None
      else apply_entries func info next result
  end.

(** [MIDIListApply( list, info, func )]; [func = None] is the [NULL]
    function pointer. *)
Definition MIDIListApply (lst info : ptr) (func : option (ptr -> ptr -> Z))
    (w : World) : outcome Z :=
  if decide (lst ≠ NULL) then
    match func with
    | Some f =>
        match heap w !! lst with
        | Some l =>
            match apply_entries f info (data l) 0 with
            | Some r => Returns r w
            | None => Undefined
            end
        | None => Undefined
        end
    | None => MIDIPrecondFailed "[EINVAL] Precondition failed (func != NULL)" EINVAL EINVAL w
    end
  else MIDIPrecondFailed "[EFAULT] Precondition failed (list != NULL)" EFAULT EFAULT w.

(** The operations of list.c, and one call of any of them. *)
Inductive op :=
| OpCreate (ok : bool) (retain_ release_ : ptr)
| OpDestroy (lst : ptr)
| OpRetain (lst : ptr)
| OpRelease (lst : ptr)
| OpAdd (ok : bool) (lst item : ptr)
| OpRemove (lst item : ptr)
| OpApply (lst info : ptr) (func : option (ptr -> ptr -> Z)).

Definition world_of {A} (o : outcome A) : option World :=
  match o with Returns _ w => Some w | Undefined => None end.

Definition run_op (o : op) (w : World) : option World :=
  match o with
  | OpCreate ok r s => world_of (MIDIListCreate ok r s w)
  | OpDestroy lst => world_of (MIDIListDestroy lst w)
  | OpRetain lst => world_of (MIDIListRetain lst w)
  | OpRelease lst => world_of (MIDIListRelease lst w)
  | OpAdd ok lst item => world_of (MIDIListAdd ok lst item w)
  | OpRemove lst item => world_of (MIDIListRemove lst item w)
  | OpApply lst info func => world_of (MIDIListApply lst info func w)
  end.

(** A sequence of calls, one after the other; [None] as soon as one is
    undefined. *)
Fixpoint run_ops (os : list op) (w : World) : option World :=
  match os with
  | [] => Some w
  | o :: os' =>
      match run_op o w with
      | Some w1 => run_ops os' w1
      | None => None
      end
  end.

End Functions.

(** *** Counting hook calls *)

Definition is_retain (lst item : ptr) (e : event) : bool :=
  match e with
  | EvRetain a _ x => bool_decide (a = lst ∧ x = item)
  | EvRelease _ _ _ => false
  end.

Definition is_release (lst item : ptr) (e : event) : bool :=
  match e with
  | EvRetain _ _ _ => false
  | EvRelease a _ x => bool_decide (a = lst ∧ x = item)
  end.

Fixpoint count_if {A} (p : A -> bool) (l : list A) : nat :=
  match l with
  | [] => O
  | x :: l' => if p x then S (count_if p l') else count_if p l'
  end.

(** Number of times [item] was passed to the retain (release) hook of
    the list at [lst]. *)
Definition retained (lst item : ptr) (w : World) : nat :=
  count_if (is_retain lst item) (calls w).
Definition released (lst item : ptr) (w : World) : nat :=
  count_if (is_release lst item) (calls w).

(** Number of entries of a chain that hold [item]. *)
Definition stored (item : ptr) (entries : list ptr) : nat :=
  count_if (Z.eqb item) entries.

(** Several hook calls appended at once. *)
Definition add_calls (es : list event) (w : World) : World :=
  mkWorld (MIDIErrorNumber w) (MIDILogger w) (logged w) (heap w) (brk w) (calls w ++ es).

(** The hook calls that [_list_item_retain] and [_list_item_release]
    make for one item: one call, or none when the item or the hook is
    [NULL]. *)
Definition retain_call (lst : ptr) (l : MIDIList) (item : ptr) : list event :=
  if decide (item ≠ NULL ∧ retain l ≠ NULL) then [EvRetain lst (retain l) item] else [].
Definition release_call (lst : ptr) (l : MIDIList) (item : ptr) : list event :=
  if decide (item ≠ NULL ∧ release l ≠ NULL) then [EvRelease lst (release l) item] else [].

(** A call that fails with error [code]: it returns [code], which is not
    zero, has stored it in [MIDIErrorNumber], and has touched no list and
    called no hook. *)
Definition fails_with (o : outcome Z) (code : Z) (w : World) : Prop :=
  exists w', o = Returns code w' /\ code <> 0 /\ MIDIErrorNumber w' = code /\
             heap w' = heap w /\ calls w' = calls w.

(** The retain/release balance of the lists of a process.  Blocks live
    below [brk]; a list whose hook is [NULL] has made no call through it;
    no stored item is [NULL]; and for a list with both hooks, every item
    has been retained once more than released for each entry that holds
    it now. *)
Definition hook_balance (w : World) : Prop :=
  0 < brk w /\
  (forall a l, heap w !! a = Some l -> 0 < a < brk w) /\
  (forall a x, brk w <= a -> retained a x w = 0%nat /\ released a x w = 0%nat) /\
  (forall a l x, heap w !! a = Some l ->
     stored NULL (data l) = 0%nat /\
     (retain l = NULL -> retained a x w = 0%nat) /\
     (release l = NULL -> released a x w = 0%nat) /\
     (retain l <> NULL -> release l <> NULL ->
      retained a x w = (released a x w + stored x (data l))%nat)).

(** The empty process, and a process with one list at block 1 (hooks
    at 100 and 200) that holds the items 7, 8 and 7, added in the order
    7, 8, 7. *)
Definition world0 : World := mkWorld 0 NULL [] ∅ 1 [].

Definition world1 : World :=
  mkWorld 0 NULL [] {[ 1 := mkMIDIList 1 100 200 [7; 8; 7] ]} 5
    [EvRetain 1 100 7; EvRetain 1 100 8; EvRetain 1 100 7].

(** A process whose allocator is sound: the next fresh block is not
    [NULL] and lies above every block in use. *)
Definition blocks_below_brk (w : World) : Prop :=
  0 < brk w /\ forall a l, heap w !! a = Some l -> 0 < a < brk w.

(** What the loop of [MIDIListApply] adds up: the results of the
    callback on the entries whose item is not [NULL]. *)
Fixpoint sum_results (func : ptr -> ptr -> Z) (info : ptr) (entries : list ptr) : Z :=
  match entries with
  | [] => 0
  | item :: next =>
      (if decide (item ≠ NULL) then func item info else 0)
      + sum_results func info next
  end.

(** Whether the running sum of the loop, started at [result], stays an
    [int] after every addition. *)
Fixpoint sums_fit (func : ptr -> ptr -> Z) (info : ptr) (entries : list ptr)
    (result : Z) : bool :=
  match entries with
  | [] => true
  | item :: next =>
      if decide (item ≠ NULL) then
        let r := result + func item info in
        (INT_MIN <=? r) && (r <=? INT_MAX) && sums_fit func info next r
      else sums_fit func info next result
  end.

(** The list argument of a call ([NULL] for [MIDIListCreate], which has
    none). *)
Definition op_list (o : op) : ptr :=
  match o with
  | OpCreate _ _ _ => NULL
  | OpDestroy lst | OpRetain lst | OpRelease lst => lst
  | OpAdd _ lst _ | OpRemove lst _ | OpApply lst _ _ => lst
  end.

(** Hook calls that are all made on behalf of the list at [a]. *)
Definition only_about (a : ptr) (es : list event) : Prop :=
  forall b x, b <> a ->
    count_if (is_retain b x) es = 0%nat /\ count_if (is_release b x) es = 0%nat.

(** A call that reported nothing: [MIDIErrorNumber] and the log are as
    before. *)
Definition silent (w w' : World) : Prop :=
  MIDIErrorNumber w' = MIDIErrorNumber w /\ logged w' = logged w.

(** A call that reported an error: [MIDIErrorNumber] holds one of the
    error numbers, at most one line went to the logger (none without a
    logger), and no list was modified and no hook called. *)
Definition reports_error `{Errno} (w w' : World) : Prop :=
  heap w' = heap w /\ calls w' = calls w /\
  (MIDIErrorNumber w' = ENOMEM \/ MIDIErrorNumber w' = EFAULT \/
   MIDIErrorNumber w' = EINVAL) /\
  (logged w' = logged w \/
   exists line, MIDILogger w <> NULL /\ logged w' = logged w ++ [line]).

(** What a call on the list at [a] can do to the process: it makes hook
    calls on behalf of that list only, leaves every other block in use
    as it is, leaves the logger installed, and either reports nothing or
    reports an error. *)
Definition op_effect `{Errno} (a : ptr) (w w' : World) : Prop :=
  exists es, calls w' = calls w ++ es /\ only_about a es /\
    (forall b, b <> a -> b <> brk w -> heap w' !! b = heap w !! b) /\
    MIDILogger w' = MIDILogger w /\
    (silent w w' \/ reports_error w w').

End MIDIListC.

(** * The network driver

    The sources of the driver (the clock, the message queue, the RTP
    transport and the AppleMIDI session; the test Makefile lists their
    tests as clock.c, message_queue.c, driver_rtp.c and
    driver_applemidi.c) are not at hand, only their specification is;
    list.c and midi.h above are what they build on.  The definitions
    below follow the wording of the specification section by section. *)

Module Driver.

(** ** Wire values

    Octets, sequence numbers, SSRCs and delta-times are unsigned: [N]. *)

(** Modelled from the spec: the 16-bit and 32-bit fields of the RTP
    header (section 6), most significant octet first. *)
Definition be16 (n : N) : list N := [(n / 256) mod 256; n mod 256]%N.
Definition be32 (n : N) : list N :=
  [(n / 16777216) mod 256; (n / 65536) mod 256; (n / 256) mod 256; n mod 256]%N.
Definition of_be16 (a b : N) : N := (a * 256 + b)%N.
Definition of_be32 (a b c d : N) : N := (((a * 256 + b) * 256 + c) * 256 + d)%N.

(** Modelled from the spec: the variable-length encoding of a delta-time
    (section 4.3, "each command delta-time variable-length encoded"):
    groups of seven bits, most significant group first, every octet but
    the last with its top bit set.  [vlq_more] writes the groups above
    the last one. *)
Fixpoint vlq_more (fuel : nat) (m : N) : list N :=
  match fuel with
  | O => []
  | S f => if (m =? 0)%N then [] else vlq_more f (m / 128)%N ++ [(128 + m mod 128)%N]
  end.

(** Modelled from the spec: a delta-time as written in the command
    section (section 4.3). *)
Definition encode_vlq (n : N) : list N :=
  vlq_more (N.to_nat (N.size n)) (n / 128)%N ++ [(n mod 128)%N].

(** Modelled from the spec: reading a delta-time (section 4.3): the
    groups are accumulated up to the first octet with a clear top bit;
    [None] when the octets end before that.  Returns the delta-time and
    the octets that follow it. *)
Fixpoint decode_vlq_from (acc : N) (bytes : list N) : option (N * list N) :=
  match bytes with
  | [] => None
  | b :: rest =>
      if (b <? 128)%N then Some ((acc * 128 + b)%N, rest)
      else decode_vlq_from (acc * 128 + b mod 128)%N rest
  end.

Definition decode_vlq (bytes : list N) : option (N * list N) :=
  decode_vlq_from 0%N bytes.

(** Modelled from the spec: the message formatter, an external
    collaborator of the transport (section 6):
    [encode(MidiCommand) -> bytes] and
    [decode(bytes) -> MidiCommand, bytesConsumed]. *)
Class Formatter (MidiCommand : Type) := {
  fmt_encode : MidiCommand -> list N;
  fmt_decode : list N -> option (MidiCommand * nat)
}.

(** Modelled from the spec: what the transport relies on in the
    formatter (section 6): decoding what was encoded, whatever follows
    it, gives the command back and consumes its octets. *)
Definition formatter_lawful {C} `{Formatter C} : Prop :=
  forall (c : C) (rest : list N),
    fmt_decode (fmt_encode c ++ rest) = Some (c, length (fmt_encode c)).

(** Modelled from the spec: the length prefix of the MIDI command section
    (section 4.3, "length-prefixed").  The specification does not fix its
    width, so it is an interface: writing a length can fail (a length
    that the prefix cannot hold), reading gives the length and what
    follows the prefix. *)
Class LengthPrefix := {
  len_encode : nat -> option (list N);
  len_decode : list N -> option (nat * list N)
}.

(** Modelled from the spec: what the transport relies on in the length
    prefix: a length that was written is read back, with what follows. *)
Definition length_prefix_lawful `{LengthPrefix} : Prop :=
  forall (n : nat) (p rest : list N),
    len_encode n = Some p -> len_decode (p ++ rest) = Some (n, rest).

(** Modelled from the spec: a formatter for three-octet channel messages
    (status, two data octets), "raw MIDI status/data bytes verbatim"
    (section 4.3); an instance of the interface to run the transport
    on. *)
Definition three_octet_encode (c : N * N * N) : list N :=
  let '(s, d1, d2) := c in [s; d1; d2].
Definition three_octet_decode (bytes : list N) : option (N * N * N * nat) :=
  match bytes with
  | s :: d1 :: d2 :: _ => Some ((s, d1, d2), 3%nat)
  | _ => None
  end.
Instance three_octet_formatter : Formatter (N * N * N) :=
  {| fmt_encode := three_octet_encode; fmt_decode := three_octet_decode |}.

(** Modelled from the spec: a length prefix of two octets that holds
    twelve bits, the long form of the RTP-MIDI command section header
    (top bit of the first octet set, the length in the twelve low bits);
    an instance of the interface to run the transport on. *)
Definition len12_encode (n : nat) : option (list N) :=
  let m := N.of_nat n in
  if (m <? 4096)%N then Some [(128 + m / 256)%N; (m mod 256)%N] else None.
Definition len12_decode (bytes : list N) : option (nat * list N) :=
  match bytes with
  | a :: b :: rest => Some (N.to_nat ((a mod 16) * 256 + b)%N, rest)
  | _ => None
  end.
Instance len12_prefix : LengthPrefix :=
  {| len_encode := len12_encode; len_decode := len12_decode |}.

(** ** RTP transport (section 4.3) *)

Section Transport.
Context {MidiCommand : Type} `{Formatter MidiCommand} `{LengthPrefix}.

(** Modelled from the spec: "the MIDI payload type" (section 4.3), a
    seven-bit number that the specification does not give. *)
Variable midi_payload_type : N.

(** Modelled from the spec: the fixed RTP header (sections 4.3 and 6):
    twelve octets, version 2 with no padding, extension or CSRC, the
    marker bit set above the payload type, the sequence number, the RTP
    timestamp derived from [Clock.now()], the SSRC. *)
Definition rtp_header (seq ssrc now : N) : list N :=
  [128; 128 + midi_payload_type]%N ++ be16 seq ++ be32 now ++ be32 ssrc.

(** Modelled from the spec: the MIDI command section (section 4.3): for
    each command its delta-time, variable-length encoded, then its
    octets as the formatter gives them. *)
Definition command_section (commands : list (N * MidiCommand)) : list N :=
  flat_map (fun dc => encode_vlq (fst dc) ++ fmt_encode (snd dc)) commands.

(** Modelled from the spec: [Encode] of the RTP transport (section 4.3):
    one datagram from the send sequence number, the local SSRC and the
    commands with their delta-times; no datagram when the section is
    longer than the length prefix can hold. *)
Definition rtp_encode (seq ssrc now : N) (commands : list (N * MidiCommand))
    : option (list N) :=
  let body := command_section commands in
  match len_encode (length body) with
  | Some prefix => Some (rtp_header seq ssrc now ++ prefix ++ body)
  | None => None
  end.

(** Modelled from the spec: parsing of the command section (section
    4.3): "malformed command encoding truncates parsing at the point of
    failure and surfaces a recoverable decode error while keeping any
    commands successfully parsed before the fault".  The flag is [false]
    on such a fault.  Every command takes at least the octet of its
    delta-time, so the length of the section is fuel enough. *)
Fixpoint parse_commands (fuel : nat) (bytes : list N)
    : list (N * MidiCommand) * bool :=
  match bytes with
  | [] => ([], true)
  | _ :: _ =>
      match fuel with
      | O => ([], false)
      | S f =>
          match decode_vlq bytes with
          | None => ([], false)
          | Some (dt, rest) =>
              match fmt_decode rest with
              | None => ([], false)
              | Some (c, n) =>
                  if (n <=? length rest)%nat then
                    let (cs, ok) := parse_commands f (drop n rest) in
                    ((dt, c) :: cs, ok)
                  else ([], false)
              end
          end
      end
  end.

(** Modelled from the spec: the result of [Decode] (section 4.3): a
    [ProtocolError] (the packet is dropped), or the sequence number, the
    SSRC and the commands parsed, with the flag of [parse_commands]. *)
Inductive decoded :=
| ProtocolError
| Decoded (seq ssrc : N) (commands : list (N * MidiCommand)) (complete : bool).

(** Modelled from the spec: [Decode] of the RTP transport (section 4.3):
    "validates RTP version and payload type", "extracts sequence number
    and SSRC, and parses the command section". *)
Definition rtp_decode (dgram : list N) : decoded :=
  match dgram with
  | b0 :: b1 :: s1 :: s0 :: _ :: _ :: _ :: _ :: r3 :: r2 :: r1 :: r0 :: payload =>
      if ((b0 / 64 =? 2) && (b1 mod 128 =? midi_payload_type))%N then
        match len_decode payload with
        | Some (len, body) =>
            let section := take len body in
            let (cs, ok) := parse_commands (length section) section in
            Decoded (of_be16 s1 s0) (of_be32 r3 r2 r1 r0) cs
                    (ok && (len <=? length body)%nat)
        | None => Decoded (of_be16 s1 s0) (of_be32 r3 r2 r1 r0) [] false
        end
      else ProtocolError
  | _ => ProtocolError
  end.

(** Modelled from the spec: the sending side of a transport (sections 3
    and 4.3): the send sequence number, sixteen bits, and the local
    SSRC.  A packet is encoded with the current sequence number, which
    is then advanced by one modulo 65536. *)
Record Transport := mkTransport {
  send_seq : N;
  local_ssrc : N
}.

(** Modelled from the spec: sending one packet on a transport (section
    4.3): encode with the current sequence number, then advance it;
    nothing is sent and nothing changes when there is no datagram. *)
Definition rtp_send (t : Transport) (now : N) (commands : list (N * MidiCommand))
    : option (list N * Transport) :=
  match rtp_encode (send_seq t) (local_ssrc t) now commands with
  | Some dgram =>
      Some (dgram, mkTransport ((send_seq t + 1) mod 65536)%N (local_ssrc t))
  | None => None
  end.

End Transport.

Arguments Transport : clear implicits.
Arguments decoded : clear implicits.

(** ** Clock (section 4.1) *)

(** Modelled from the spec: the clock estimate (section 3): "offset
    (signed 64-bit, peer time minus local time) and one-way latency",
    in ticks, and whether a handshake has completed. *)
Record ClockEstimate := mkClock {
  offset : Z;
  latency : Z;
  synchronized : bool
}.

(** Modelled from the spec: a clock-sync message (section 6): "count byte
    + padding + three uint64 timestamp slots". *)
Record SyncMessage := mkSync {
  count : Z;
  t1 : Z;
  t2 : Z;
  t3 : Z
}.

(** Modelled from the spec: the estimate of section 4.1,
    "latency = ((t3−t1) − (t2−t1))/2" and "offset = t2 − t1 − latency",
    on integer ticks (the division truncates, as [/] does in C). *)
Definition sync_latency (m : SyncMessage) : Z :=
  Z.quot ((t3 m - t1 m) - (t2 m - t1 m)) 2.
Definition sync_offset (m : SyncMessage) : Z :=
  t2 m - t1 m - sync_latency m.

(** Modelled from the spec: what [onSyncMessage] does (section 4.1): the
    new estimate, the message sent in answer if any, and whether a
    protocol violation was logged. *)
Record SyncResult := mkSyncResult {
  estimate : ClockEstimate;
  reply : option SyncMessage;
  violation : bool
}.

(** Modelled from the spec: [onSyncMessage(count, t1, t2, t3, localNow)]
    (section 4.1): count 0, "echo back with t2=localNow"; count 1,
    "compute latency ..., offset ..., send CK2"; count 2, "store
    offset/latency, mark synchronized"; "any out-of-sequence count value
    is ignored and logged". *)
Definition onSyncMessage (est : ClockEstimate) (m : SyncMessage) (localNow : Z)
    : SyncResult :=
  if count m =? 0 then
    mkSyncResult est (Some (mkSync 1 (t1 m) localNow (t3 m))) false
  else if count m =? 1 then
    mkSyncResult (mkClock (sync_offset m) (sync_latency m) true)
                 (Some (mkSync 2 (t1 m) (t2 m) (t3 m))) false
  else if count m =? 2 then
    mkSyncResult (mkClock (sync_offset m) (sync_latency m) true) None false
  else
    mkSyncResult est None true.

(** ** AppleMIDI session (section 4.2) *)

(** Modelled from the spec: the states of a session (section 4.2). *)
Inductive State :=
| Idle | Inviting | Invited | SyncPending | Established | Ending | Closed
| Listening | AcceptingInvite.

(** Modelled from the spec: the AppleMIDI control packets (section 6):
    invite, accepted, rejected, bye, clock-sync, receiver-feedback. *)
Inductive ControlPacket :=
| Invitation (version token ssrc : N) (name : string)
| Accepted (version token ssrc : N) (name : string)
| Rejected (version token ssrc : N)
| Bye (version token ssrc : N)
| ClockSync (ssrc : N) (m : SyncMessage)
| ReceiverFeedback (ssrc seq : N).

(** Modelled from the spec: a session (section 3): its state, the
    initiator token of its invitation, the peer's SSRC, its transport,
    its clock estimate, the last sequence number received, the retry
    counter. *)
Record Session := mkSession {
  state : State;
  token : N;
  peer_ssrc : N;
  transport : Transport;
  clock : ClockEstimate;
  last_received : option N;
  retries : nat
}.

(** Modelled from the spec: a change of state that keeps the rest of the
    session. *)
Definition set_state (st : State) (s : Session) : Session :=
  mkSession st (token s) (peer_ssrc s) (transport s) (clock s)
            (last_received s) (retries s).

(** Modelled from the spec: [Idle --invite()--> Inviting] (section 4.2):
    "emits an invitation packet (signature, command invite, version=2,
    initiator token, local SSRC, session name)". *)
Definition invite (tok : N) (name : string) (s : Session)
    : Session * list ControlPacket :=
  match state s with
  | Idle =>
      (mkSession Inviting tok (peer_ssrc s) (transport s) (clock s)
                 (last_received s) 0%nat,
       [Invitation 2 tok (local_ssrc (transport s)) name])
  | _ => (s, [])
  end.

(** Modelled from the spec: the transitions of section 4.2 on a control
    packet received at local time [now]; the packets sent in answer are
    returned.  An acceptance moves [Inviting] through [Invited] on to
    [SyncPending] at once and begins the clock handshake; an acceptance
    or a rejection counts only with the token that was sent (section 8
    for the rejection), any other is dropped; a bye closes from any
    state; a completed clock handshake moves [SyncPending] to
    [Established]. *)
Definition handle_control (now : Z) (p : ControlPacket) (s : Session)
    : Session * list ControlPacket :=
  match p with
  | Bye _ _ _ => (set_state Closed s, [])
  | Accepted _ tok ssrc _ =>
      match state s with
      | Inviting =>
          if (tok =? token s)%N then
            (mkSession SyncPending (token s) ssrc (transport s) (clock s)
                       (last_received s) 0%nat,
             [ClockSync (local_ssrc (transport s)) (mkSync 0 now 0 0)])
          else (s, [])
      | _ => (s, [])
      end
  | Rejected _ tok _ =>
      match state s with
      | Inviting => if (tok =? token s)%N then (set_state Closed s, []) else (s, [])
      | _ => (s, [])
      end
  | Invitation _ tok ssrc name =>
      match state s with
      | Listening =>
          (mkSession AcceptingInvite tok ssrc (transport s) (clock s)
                     (last_received s) 0%nat,
           [Accepted 2 tok (local_ssrc (transport s)) name])
      | _ => (s, [])
      end
  | ClockSync _ m =>
      match state s with
      | SyncPending | Established | AcceptingInvite =>
          let r := onSyncMessage (clock s) m now in
          let st := match state s with
                    | SyncPending | AcceptingInvite =>
                        if synchronized (estimate r) then Established else state s
                    | st => st
                    end in
          (mkSession st (token s) (peer_ssrc s) (transport s) (estimate r)
                     (last_received s) (retries s),
           match reply r with
           | Some m' => [ClockSync (local_ssrc (transport s)) m']
           | None => []
           end)
      | _ => (s, [])
      end
  | ReceiverFeedback _ _ => (s, [])
  end.

(** ** Message queue (section 4.4) *)

Section Queue.
Context {MidiCommand : Type}.

(** Modelled from the spec: a queued message (section 3): the
    destination session, the command span with its delta-time, the
    enqueue timestamp.  Pacing is the per-tick cap of [take_batch]. *)
Record Queued := mkQueued {
  destination : N;
  delta_time : N;
  command : MidiCommand;
  enqueued_at : Z
}.

(** Modelled from the spec: [enqueue(session, commandSpan)] (section
    4.4): "fails only with InvalidArgument if the session is Closed"
    ([None]); otherwise the message goes to the back of the queue. *)
Definition enqueue (st : State) (e : Queued) (q : list Queued)
    : option (list Queued) :=
  match st with
  | Closed => None
  | _ => Some (q ++ [e])
  end.

(** Modelled from the spec: one run-loop tick for one session (section
    4.4): at most [cap] of the messages queued for the session, oldest
    first, are taken for one outbound packet; "remaining entries stay
    queued for the next tick".  Returns the batch and the queue left. *)
Fixpoint take_batch (cap : nat) (s : N) (q : list Queued)
    : list Queued * list Queued :=
  match q with
  | [] => ([], [])
  | e :: q' =>
      if (destination e =? s)%N then
        match cap with
        | O => ([], q)
        | S cap' =>
            let (batch, rest) := take_batch cap' s q' in (e :: batch, rest)
        end
      else
        let (batch, rest) := take_batch cap s q' in (batch, e :: rest)
  end.

(** Modelled from the spec: [n] successive ticks for one session: the
    batches sent, in the order of the ticks, and the queue left. *)
Fixpoint ticks (n cap : nat) (s : N) (q : list Queued)
    : list (list Queued) * list Queued :=
  match n with
  | O => ([], q)
  | S n' =>
      let (batch, q1) := take_batch cap s q in
      let (batches, q2) := ticks n' cap s q1 in
      (batch :: batches, q2)
  end.

(** Modelled from the spec: the messages of a queue that are for session
    [s], oldest first ("FIFO per destination Session", section 4.4). *)
Definition queued_for (s : N) (q : list Queued) : list Queued :=
  List.filter (fun e => (destination e =? s)%N) q.

End Queue.

Arguments Queued : clear implicits.

(** ** Sending on a session *)

Section Sending.
Context {MidiCommand : Type} `{Formatter MidiCommand} `{LengthPrefix}.
Variable midi_payload_type : N.

(** Modelled from the spec: an established session sends a packet
    (section 4.2, "outbound queued messages are encoded and sent"): the
    packet is encoded by the session's transport, whose sequence number
    advances. *)
Definition session_send (now : N) (commands : list (N * MidiCommand))
    (s : Session) : option (list N * Session) :=
  match state s with
  | Established =>
      match rtp_send midi_payload_type (transport s) now commands with
      | Some (dgram, t') =>
          Some (dgram, mkSession (state s) (token s) (peer_ssrc s) t' (clock s)
                                 (last_received s) (retries s))
      | None => None
      end
  | _ => None
  end.

(** Modelled from the spec: a session sends packets one after the other;
    each element of [packets] is the local time and the commands of one
    packet. *)
Fixpoint session_send_all (packets : list (N * list (N * MidiCommand)))
    (s : Session) : option (list (list N) * Session) :=
  match packets with
  | [] => Some ([], s)
  | (now, commands) :: more =>
      match session_send now commands s with
      | Some (dgram, s1) =>
          match session_send_all more s1 with
          | Some (dgrams, s2) => Some (dgram :: dgrams, s2)
          | None => None
          end
      | None => None
      end
  end.

End Sending.

End Driver.

(** * Properties *)

(** ** The value macros *)

Section MacroProps.
Import Midi.

Example long_value_ex : MIDI_LONG_VALUE 0x12 0x34 = 0x934.
Proof. reflexivity. Qed.

Example nibble_value_ex : MIDI_NIBBLE_VALUE 0x9 0x3 = 0x93.
Proof. reflexivity. Qed.

(** Masking with [2^n - 1] is reduction modulo [2^n]. *)
Lemma land_mask (x n : Z) : 0 <= n -> Z.land x (2 ^ n - 1) = x mod 2 ^ n.
Proof. intros Hn. rewrite <- Z.land_ones by assumption. now rewrite Z.ones_equiv, Z.sub_1_r. Qed.

(** Packing a high part above [n] low bits and a low part below them:
    the high part is recovered by the shift, the low part by the mask. *)
Lemma pack_high (hi lo n : Z) :
  0 <= n -> 0 <= lo < 2 ^ n ->
  Z.shiftr (Z.lor (Z.shiftl hi n) lo) n = hi.
Proof.
  intros Hn Hlo.
  rewrite Z.shiftr_lor, Z.shiftr_shiftl_l, Z.sub_diag, Z.shiftl_0_r by lia.
  rewrite (Z.shiftr_div_pow2 lo) by lia.
  rewrite Z.div_small by lia.
  apply Z.lor_0_r.
Qed.

Lemma pack_low (hi lo n : Z) :
  0 <= n -> 0 <= lo < 2 ^ n ->
  (Z.lor (Z.shiftl hi n) lo) mod 2 ^ n = lo.
Proof.
  intros Hn Hlo.
  rewrite <- Z.land_ones by lia.
  rewrite Z.land_lor_distr_l.
  rewrite !Z.land_ones by lia.
  rewrite Z.shiftl_mul_pow2 by lia.
  rewrite Z.mod_mul by lia.
  rewrite Z.mod_small by lia.
  reflexivity.
Qed.

(** C10: packing two 7-bit values with [MIDI_LONG_VALUE] and unpacking with
    [MIDI_MSB] and [MIDI_LSB] gives the two values back, and packing two
    4-bit values with [MIDI_NIBBLE_VALUE] and unpacking with
    [MIDI_HIGH_NIBBLE] and [MIDI_LOW_NIBBLE] gives the two values back. *)
Theorem macro_pack_unpack (m l h k : Z) :
  0 <= m < 128 -> 0 <= l < 128 -> 0 <= h < 16 -> 0 <= k < 16 ->
  MIDI_MSB (MIDI_LONG_VALUE m l) = m /\
  MIDI_LSB (MIDI_LONG_VALUE m l) = l /\
  MIDI_HIGH_NIBBLE (MIDI_NIBBLE_VALUE h k) = h /\
  MIDI_LOW_NIBBLE (MIDI_NIBBLE_VALUE h k) = k.
Proof.
  intros Hm Hl Hh Hk.
  unfold MIDI_MSB, MIDI_LSB, MIDI_LONG_VALUE.
  unfold MIDI_HIGH_NIBBLE, MIDI_LOW_NIBBLE, MIDI_NIBBLE_VALUE.
  change 0x7f with (2 ^ 7 - 1). change 0xf with (2 ^ 4 - 1).
  rewrite !land_mask by lia.
  rewrite (Z.mod_small m), (Z.mod_small l), (Z.mod_small k) by lia.
  rewrite !pack_high, !pack_low by lia.
  rewrite (Z.mod_small m), (Z.mod_small h) by lia.
  repeat split.
Qed.

Lemma macro_pack_unpack_witness :
  MIDI_MSB (MIDI_LONG_VALUE 0x12 0x34) = 0x12 /\
  MIDI_LSB (MIDI_LONG_VALUE 0x12 0x34) = 0x34 /\
  MIDI_HIGH_NIBBLE (MIDI_NIBBLE_VALUE 0x9 0x3) = 0x9 /\
  MIDI_LOW_NIBBLE (MIDI_NIBBLE_VALUE 0x9 0x3) = 0x3.
Proof. apply (macro_pack_unpack 0x12 0x34 0x9 0x3); lia. Defined.

End MacroProps.

(** ** The list container *)

Section ListProps.
Import MIDIListC.
Context `{Errno}.

Lemma add_calls_nil w : add_calls [] w = w.
Proof. destruct w; unfold add_calls; simpl. now rewrite app_nil_r. Qed.

Lemma add_calls_app es1 es2 w :
  add_calls es2 (add_calls es1 w) = add_calls (es1 ++ es2) w.
Proof. unfold add_calls; simpl. now rewrite app_assoc. Qed.

Lemma item_retain_calls lst l item w :
  _list_item_retain lst l item w = add_calls (retain_call lst l item) w.
Proof.
  unfold _list_item_retain, retain_call.
  destruct (decide _); [reflexivity | now rewrite add_calls_nil].
Qed.

Lemma item_release_calls lst l item w :
  _list_item_release lst l item w = add_calls (release_call lst l item) w.
Proof.
  unfold _list_item_release, release_call.
  destruct (decide _); [reflexivity | now rewrite add_calls_nil].
Qed.

(** The destroy loop releases every entry once, head first. *)
Lemma destroy_entries_calls lst l entries w :
  destroy_entries lst l entries w =
  add_calls (flat_map (release_call lst l) entries) w.
Proof.
  revert w. induction entries as [|e next IH]; intros w; simpl.
  - now rewrite add_calls_nil.
  - rewrite IH, item_release_calls, add_calls_app. reflexivity.
Qed.

(** The remove loop keeps, in order, the entries that do not hold
    [item], and releases each entry that does. *)
Lemma remove_entries_spec lst l item entries w :
  remove_entries lst l item entries w =
  (filter (fun e => e <> item) entries,
   add_calls (flat_map (release_call lst l) (filter (fun e => e = item) entries)) w).
Proof.
  revert w. induction entries as [|e next IH]; intros w; simpl.
  - now rewrite add_calls_nil.
  - destruct (decide (e = item)) as [He|He].
    + rewrite IH, item_release_calls, add_calls_app.
      rewrite (filter_cons_False (fun e => e <> item)) by (intros Hn; now apply Hn).
      rewrite (filter_cons_True (fun e => e = item)) by assumption.
      reflexivity.
    + rewrite IH.
      rewrite (filter_cons_True (fun e => e <> item)) by assumption.
      rewrite (filter_cons_False (fun e => e = item)) by assumption.
      reflexivity.
Qed.

Lemma filter_eq_repeat (item : ptr) (entries : list ptr) :
  filter (fun e => e = item) entries = repeat item (stored item entries).
Proof.
  induction entries as [|e next IH]; [reflexivity|].
  unfold stored in *; simpl.
  destruct (decide (e = item)) as [->|He].
  - rewrite filter_cons_True by reflexivity.
    rewrite Z.eqb_refl. simpl. now rewrite IH.
  - rewrite filter_cons_False by assumption.
    destruct (Z.eqb_spec item e) as [E|_]; [now subst|exact IH].
Qed.

Lemma flat_map_release_repeat lst l item n :
  item <> NULL ->
  flat_map (release_call lst l) (repeat item n) =
  if decide (release l <> NULL) then repeat (EvRelease lst (release l) item) n else [].
Proof.
  intros Hi. induction n as [|n IH]; simpl.
  - now destruct (decide _).
  - rewrite IH. unfold release_call.
    destruct (decide (release l <> NULL)) as [Hr|Hr].
    + rewrite decide_True by (split; assumption). reflexivity.
    + rewrite decide_False by (intros [_ ?]; contradiction). reflexivity.
Qed.

Lemma stored_filter_ne (item x : ptr) (entries : list ptr) :
  stored x (filter (fun e => e <> item) entries) =
  if decide (x = item) then 0%nat else stored x entries.
Proof.
  induction entries as [|e next IH].
  - now destruct (decide _).
  - destruct (decide (e = item)) as [->|He].
    + rewrite filter_cons_False by (intros Hn; now apply Hn).
      rewrite IH. destruct (decide (x = item)) as [_|Hx]; [reflexivity|].
      unfold stored; simpl.
      destruct (Z.eqb_spec x item); [contradiction|reflexivity].
    + rewrite filter_cons_True by assumption.
      unfold stored in *; simpl. rewrite IH.
      destruct (decide (x = item)) as [->|Hx].
      * destruct (Z.eqb_spec item e); [now subst|reflexivity].
      * reflexivity.
Qed.

Lemma stored_none_filter (item : ptr) (entries : list ptr) :
  stored item entries = 0%nat -> filter (fun e => e <> item) entries = entries.
Proof.
  induction entries as [|e next IH]; [reflexivity|].
  unfold stored in *; simpl.
  destruct (Z.eqb_spec item e) as [E|E]; [discriminate|].
  intros H0. rewrite filter_cons_True by congruence. now rewrite IH.
Qed.

Lemma count_if_app {A} (p : A -> bool) (l1 l2 : list A) :
  count_if p (l1 ++ l2) = (count_if p l1 + count_if p l2)%nat.
Proof.
  induction l1 as [|x l1 IH]; [reflexivity|].
  simpl. destruct (p x); simpl; now rewrite IH.
Qed.

Lemma retained_add_calls a x es w :
  retained a x (add_calls es w) = (retained a x w + count_if (is_retain a x) es)%nat.
Proof. unfold retained, add_calls; simpl. apply count_if_app. Qed.

Lemma released_add_calls a x es w :
  released a x (add_calls es w) = (released a x w + count_if (is_release a x) es)%nat.
Proof. unfold released, add_calls; simpl. apply count_if_app. Qed.

Lemma count_retain_retain_call a x lst l item :
  count_if (is_retain a x) (retain_call lst l item) =
  if decide (a = lst /\ x = item /\ item <> NULL /\ retain l <> NULL) then 1%nat else 0%nat.
Proof.
  unfold retain_call.
  destruct (decide (item <> NULL /\ retain l <> NULL)) as [[Hi Hr]|Hn]; simpl.
  - destruct (decide (a = lst /\ x = item /\ _)) as [(-> & -> & _)|Hd].
    + now rewrite bool_decide_eq_true_2.
    + rewrite bool_decide_eq_false_2; [reflexivity|].
      intros [-> ->]. apply Hd. repeat split; assumption.
  - rewrite decide_False; [reflexivity|].
    intros (_ & _ & Hi & Hr). apply Hn. split; assumption.
Qed.

Lemma count_release_retain_call a x lst l item :
  count_if (is_release a x) (retain_call lst l item) = 0%nat.
Proof. unfold retain_call. now destruct (decide _). Qed.

Lemma count_retain_release_calls a x lst l entries :
  count_if (is_retain a x) (flat_map (release_call lst l) entries) = 0%nat.
Proof.
  induction entries as [|e next IH]; [reflexivity|].
  simpl. rewrite count_if_app, IH.
  unfold release_call. now destruct (decide _).
Qed.

Lemma count_release_release_calls a x lst l entries :
  count_if (is_release a x) (flat_map (release_call lst l) entries) =
  if decide (a = lst /\ x <> NULL /\ release l <> NULL) then stored x entries else 0%nat.
Proof.
  induction entries as [|e next IH]; simpl.
  - now destruct (decide _).
  - rewrite count_if_app, IH. unfold stored; simpl. unfold release_call.
    destruct (decide (a = lst /\ x <> NULL /\ release l <> NULL)) as [(-> & Hx & Hr)|Hd].
    + destruct (Z.eqb_spec x e) as [<-|Hne].
      * rewrite decide_True by (split; assumption). simpl.
        now rewrite bool_decide_eq_true_2.
      * destruct (decide (e <> NULL /\ _)); simpl; [|reflexivity].
        rewrite bool_decide_eq_false_2; [reflexivity|].
        intros [_ E]. now apply Hne.
    + destruct (decide (e <> NULL /\ _)) as [[He Hr]|]; simpl; [|reflexivity].
      rewrite bool_decide_eq_false_2; [reflexivity|].
      intros [-> ->]. apply Hd. repeat split; assumption.
Qed.

(** *** Preservation of the balance *)

(** Only the heap, the break and the hook calls matter. *)
Lemma hook_balance_ext w w' :
  heap w' = heap w -> brk w' = brk w -> calls w' = calls w ->
  hook_balance w -> hook_balance w'.
Proof.
  unfold hook_balance, retained, released.
  intros -> -> ->. exact (fun H => H).
Qed.

Lemma hook_balance_precond {A} msg kind (v : A) w w' :
  MIDIPrecondFailed msg kind v w = Returns v w' ->
  heap w' = heap w /\ brk w' = brk w /\ calls w' = calls w /\
  MIDIErrorNumber w' = kind.
Proof.
  unfold MIDIPrecondFailed, MIDILogLocation. intros E.
  injection E as <-.
  destruct (decide _); repeat split; reflexivity.
Qed.

(** The list at [a] is replaced by [l'] with the same hooks, calls [es]
    are made on its behalf, and the calls account for the change of the
    stored entries. *)
Lemma hook_balance_update w w' a l l' es :
  hook_balance w ->
  heap w !! a = Some l ->
  heap w' = <[a := l']> (heap w) ->
  brk w <= brk w' ->
  calls w' = calls w ++ es ->
  retain l' = retain l -> release l' = release l ->
  stored NULL (data l') = 0%nat ->
  (forall b x, b <> a ->
     count_if (is_retain b x) es = 0%nat /\ count_if (is_release b x) es = 0%nat) ->
  (forall x, retain l = NULL -> count_if (is_retain a x) es = 0%nat) ->
  (forall x, release l = NULL -> count_if (is_release a x) es = 0%nat) ->
  (forall x, retain l <> NULL -> release l <> NULL ->
     (count_if (is_retain a x) es + stored x (data l) =
      count_if (is_release a x) es + stored x (data l'))%nat) ->
  hook_balance w'.
Proof.
  intros (Hb & Hlive & Hfresh & Hbal) Ha Hheap Hbrk Hcalls Hr Hs Hnull Hother Hret Hrel Hcount.
  unfold hook_balance, retained, released in *.
  rewrite Hheap, Hcalls.
  assert (Halt : 0 < a < brk w) by (eapply Hlive; eassumption).
  split; [lia|]. split; [|split].
  - intros b lb Hlb. destruct (decide (a = b)) as [<-|Hab].
    + lia.
    + rewrite lookup_insert_ne in Hlb by assumption.
      specialize (Hlive _ _ Hlb). lia.
  - intros b x Hbx. rewrite !count_if_app.
    destruct (Hfresh b x ltac:(lia)) as [-> ->].
    destruct (Hother b x ltac:(lia)) as [-> ->]. split; reflexivity.
  - intros b lb x Hlb. rewrite !count_if_app.
    destruct (decide (a = b)) as [<-|Hab].
    + rewrite lookup_insert_eq in Hlb. injection Hlb as <-.
      destruct (Hbal a l x Ha) as (_ & H1 & H2 & H3).
      rewrite Hr, Hs. split; [assumption|]. split; [|split].
      * intros Hn. rewrite (H1 Hn), (Hret x Hn). reflexivity.
      * intros Hn. rewrite (H2 Hn), (Hrel x Hn). reflexivity.
      * intros Hn1 Hn2. specialize (H3 Hn1 Hn2). specialize (Hcount x Hn1 Hn2). lia.
    + rewrite lookup_insert_ne in Hlb by assumption.
      destruct (Hother b x ltac:(congruence)) as [-> ->].
      rewrite !Nat.add_0_r. exact (Hbal b lb x Hlb).
Qed.

Lemma stored_cons_ne (x e : ptr) (entries : list ptr) :
  x <> e -> stored x (e :: entries) = stored x entries.
Proof. intros Hne. unfold stored; simpl. now destruct (Z.eqb_spec x e). Qed.

Lemma stored_cons_eq (x : ptr) (entries : list ptr) :
  stored x (x :: entries) = S (stored x entries).
Proof. unfold stored; simpl. now rewrite Z.eqb_refl. Qed.

Lemma MIDIListAdd_balance ok lst item w v w' :
  hook_balance w ->
  MIDIListAdd ok lst item w = Returns v w' -> hook_balance w'.
Proof.
  intros Hw. unfold MIDIListAdd.
  destruct (decide (lst <> NULL)) as [Hl|Hl]; [destruct (decide (item <> NULL)) as [Hi|Hi]|].
  - destruct ok; unfold malloc; cbv beta iota;
      [|rewrite decide_False by (intros E; now apply E); intros; discriminate].
    destruct (decide (_ <> NULL)); [|intros; discriminate]. simpl.
    destruct (heap w !! lst) as [l|] eqn:Hlk; [|intros; discriminate].
    rewrite item_retain_calls. intros E. injection E as <- <-.
    eapply (hook_balance_update w _ lst l _ (retain_call lst l item)); eauto.
    + simpl; lia.
    + simpl. rewrite stored_cons_ne by (intros E; now apply Hi).
      destruct Hw as (_ & _ & _ & Hb). apply (Hb lst l NULL Hlk).
    + intros b x Hb. rewrite count_retain_retain_call, count_release_retain_call.
      rewrite decide_False by (intros [? _]; contradiction). split; reflexivity.
    + intros x Hn. rewrite count_retain_retain_call.
      apply decide_False. intros (_ & _ & _ & ?); contradiction.
    + intros x _. apply count_release_retain_call.
    + intros x Hr Hs. rewrite count_retain_retain_call, count_release_retain_call. simpl.
      destruct (decide (x = item)) as [->|Hx].
      * rewrite decide_True by (repeat split; assumption).
        rewrite stored_cons_eq. reflexivity.
      * rewrite decide_False by (intros (_ & ? & _); contradiction).
        rewrite stored_cons_ne by assumption. reflexivity.
  - intros E. assert (v = EINVAL) as -> by (unfold MIDIPrecondFailed in E; congruence).
    apply hook_balance_precond in E as (? & ? & ? & _).
    eapply hook_balance_ext; eauto.
  - intros E. assert (v = EFAULT) as -> by (unfold MIDIPrecondFailed in E; congruence).
    apply hook_balance_precond in E as (? & ? & ? & _).
    eapply hook_balance_ext; eauto.
Qed.

Lemma MIDIListRemove_balance lst item w v w' :
  hook_balance w ->
  MIDIListRemove lst item w = Returns v w' -> hook_balance w'.
Proof.
  intros Hw. unfold MIDIListRemove.
  destruct (decide (lst <> NULL)) as [Hl|Hl]; [destruct (decide (item <> NULL)) as [Hi|Hi]|].
  - destruct (heap w !! lst) as [l|] eqn:Hlk; [|intros; discriminate].
    rewrite remove_entries_spec. intros E. injection E as <- <-.
    eapply (hook_balance_update w _ lst l _
              (flat_map (release_call lst l) (filter (fun e => e = item) (data l)))); eauto.
    + simpl; lia.
    + simpl. rewrite stored_filter_ne.
      rewrite decide_False by (intros E; now apply Hi).
      destruct Hw as (_ & _ & _ & Hb). apply (Hb lst l NULL Hlk).
    + intros b x Hb. rewrite count_retain_release_calls, count_release_release_calls.
      rewrite decide_False by (intros [? _]; contradiction). split; reflexivity.
    + intros x _. apply count_retain_release_calls.
    + intros x Hn. rewrite count_release_release_calls.
      apply decide_False. intros (_ & _ & ?); contradiction.
    + intros x Hr Hs. rewrite count_retain_release_calls, count_release_release_calls.
      simpl. rewrite stored_filter_ne, filter_eq_repeat.
      destruct (decide (x = item)) as [->|Hx].
      * rewrite decide_True by (repeat split; assumption).
        unfold stored at 2. clear. induction (stored item (data l)) as [|n IH]; simpl.
        -- reflexivity.
        -- rewrite Z.eqb_refl. simpl in IH. lia.
      * assert (stored x (repeat item (stored item (data l))) = 0%nat) as ->.
        { induction (stored item (data l)) as [|n IH]; [reflexivity|].
          simpl. rewrite stored_cons_ne by assumption. exact IH. }
        destruct (decide _); lia.
  - intros E. assert (v = EINVAL) as -> by (unfold MIDIPrecondFailed in E; congruence).
    apply hook_balance_precond in E as (? & ? & ? & _).
    eapply hook_balance_ext; eauto.
  - intros E. assert (v = EFAULT) as -> by (unfold MIDIPrecondFailed in E; congruence).
    apply hook_balance_precond in E as (? & ? & ? & _).
    eapply hook_balance_ext; eauto.
Qed.

Lemma hook_balance_refs w a l n :
  hook_balance w -> heap w !! a = Some l ->
  hook_balance (set_heap (<[a := mkMIDIList n (retain l) (release l) (data l)]> (heap w)) w).
Proof.
  intros Hw Ha.
  eapply (hook_balance_update w _ a l _ []); eauto.
  - simpl; lia.
  - simpl. now rewrite app_nil_r.
  - simpl. destruct Hw as (_ & _ & _ & Hb). apply (Hb a l NULL Ha).
Qed.

Lemma hook_balance_destroy w a l :
  hook_balance w -> heap w !! a = Some l ->
  hook_balance (set_heap (delete a (heap w))
                  (add_calls (flat_map (release_call a l) (data l)) w)).
Proof.
  intros (Hb & Hlive & Hfresh & Hbal) Ha.
  assert (Halt : 0 < a < brk w) by (eapply Hlive; eassumption).
  unfold hook_balance, retained, released in *. simpl.
  split; [assumption|]. split; [|split].
  - intros b lb Hlb. apply lookup_delete_Some in Hlb as [_ Hlb]. eapply Hlive; eassumption.
  - intros b x Hbx. rewrite !count_if_app.
    rewrite count_retain_release_calls, count_release_release_calls.
    rewrite decide_False by (intros [-> _]; lia).
    destruct (Hfresh b x Hbx) as [-> ->]. split; reflexivity.
  - intros b lb x Hlb. apply lookup_delete_Some in Hlb as [Hab Hlb].
    rewrite !count_if_app.
    rewrite count_retain_release_calls, count_release_release_calls.
    rewrite decide_False by (intros [-> _]; now apply Hab).
    rewrite !Nat.add_0_r. exact (Hbal b lb x Hlb).
Qed.

Lemma MIDIListDestroy_calls lst l w :
  lst <> NULL -> heap w !! lst = Some l ->
  MIDIListDestroy lst w =
  Returns tt (set_heap (delete lst (heap w))
                (add_calls (flat_map (release_call lst l) (data l)) w)).
Proof.
  intros Hl Hlk. unfold MIDIListDestroy.
  rewrite decide_True by assumption. rewrite Hlk.
  rewrite destroy_entries_calls. reflexivity.
Qed.

Lemma MIDIListDestroy_balance lst w v w' :
  hook_balance w ->
  MIDIListDestroy lst w = Returns v w' -> hook_balance w'.
Proof.
  intros Hw. destruct (decide (lst <> NULL)) as [Hl|Hl].
  - destruct (heap w !! lst) as [l|] eqn:Hlk.
    + rewrite (MIDIListDestroy_calls lst l) by assumption.
      intros E. injection E as <- <-. now apply hook_balance_destroy.
    + unfold MIDIListDestroy. rewrite decide_True by assumption. rewrite Hlk.
      intros; discriminate.
  - unfold MIDIListDestroy. rewrite decide_False by assumption.
    intros E. destruct v.
    apply hook_balance_precond in E as (? & ? & ? & _).
    eapply hook_balance_ext; eauto.
Qed.

Lemma MIDIListCreate_balance ok r s w v w' :
  hook_balance w ->
  MIDIListCreate ok r s w = Returns v w' -> hook_balance w'.
Proof.
  intros Hw. unfold MIDIListCreate, malloc.
  destruct ok; cbv beta iota.
  - destruct Hw as (Hb & Hlive & Hfresh & Hbal).
    rewrite decide_True by (unfold NULL; lia).
    intros E. injection E as <- <-.
    unfold hook_balance, retained, released in *. simpl.
    split; [lia|]. split; [|split].
    + intros b lb Hlb. destruct (decide (brk w = b)) as [<-|Hne]; [lia|].
      rewrite lookup_insert_ne in Hlb by assumption.
      specialize (Hlive _ _ Hlb). lia.
    + intros b x Hbx. apply Hfresh. lia.
    + intros b lb x Hlb. destruct (decide (brk w = b)) as [<-|Hne].
      * rewrite lookup_insert_eq in Hlb. injection Hlb as <-. simpl.
        destruct (Hfresh (brk w) x ltac:(lia)) as [-> ->].
        repeat split; reflexivity.
      * rewrite lookup_insert_ne in Hlb by assumption. exact (Hbal b lb x Hlb).
  - rewrite decide_False by (intros E; now apply E).
    intros E. assert (v = NULL) as -> by (unfold MIDIPrecondFailed in E; congruence).
    apply hook_balance_precond in E as (? & ? & ? & _).
    eapply hook_balance_ext; eauto.
Qed.

Lemma MIDIListRetain_balance lst w v w' :
  hook_balance w ->
  MIDIListRetain lst w = Returns v w' -> hook_balance w'.
Proof.
  intros Hw. unfold MIDIListRetain.
  destruct (decide (lst <> NULL)) as [Hl|Hl].
  - destruct (heap w !! lst) as [l|] eqn:Hlk; [|intros; discriminate].
    destruct (decide _); [|intros; discriminate].
    intros E. injection E as <- <-. now apply hook_balance_refs.
  - intros E. destruct v.
    apply hook_balance_precond in E as (? & ? & ? & _).
    eapply hook_balance_ext; eauto.
Qed.

Lemma MIDIListRelease_balance lst w v w' :
  hook_balance w ->
  MIDIListRelease lst w = Returns v w' -> hook_balance w'.
Proof.
  intros Hw. unfold MIDIListRelease.
  destruct (decide (lst <> NULL)) as [Hl|Hl].
  - destruct (heap w !! lst) as [l|] eqn:Hlk; [|intros; discriminate].
    destruct (decide (INT_MIN < _)); [|intros; discriminate].
    cbv zeta. destruct (decide (_ = 0)).
    + apply MIDIListDestroy_balance. now apply hook_balance_refs.
    + intros E. injection E as <- <-. now apply hook_balance_refs.
  - intros E. destruct v.
    apply hook_balance_precond in E as (? & ? & ? & _).
    eapply hook_balance_ext; eauto.
Qed.

Lemma MIDIListApply_balance lst info func w v w' :
  hook_balance w ->
  MIDIListApply lst info func w = Returns v w' -> hook_balance w'.
Proof.
  intros Hw. unfold MIDIListApply.
  destruct (decide (lst <> NULL)) as [Hl|Hl]; [destruct func as [f|]|].
  - destruct (heap w !! lst) as [l|]; [|intros; discriminate].
    destruct (apply_entries _ _ _ _); [|intros; discriminate].
    intros E. injection E as <- <-. assumption.
  - intros E. assert (v = EINVAL) as -> by (unfold MIDIPrecondFailed in E; congruence).
    apply hook_balance_precond in E as (? & ? & ? & _).
    eapply hook_balance_ext; eauto.
  - intros E. assert (v = EFAULT) as -> by (unfold MIDIPrecondFailed in E; congruence).
    apply hook_balance_precond in E as (? & ? & ? & _).
    eapply hook_balance_ext; eauto.
Qed.

Lemma world_of_Some {A} (o : outcome A) w' :
  world_of o = Some w' -> exists v, o = Returns v w'.
Proof. destruct o as [v w|]; simpl; [|discriminate]. intros E. injection E as ->. now exists v. Qed.

Lemma hook_balance_world0 : hook_balance world0.
Proof.
  unfold hook_balance, world0, retained, released; simpl.
  split; [lia|]. split; [|split].
  - intros a l Hl. now rewrite lookup_empty in Hl.
  - intros; split; reflexivity.
  - intros a l x Hl. now rewrite lookup_empty in Hl.
Qed.

Lemma run_op_balance o w w' :
  hook_balance w -> run_op o w = Some w' -> hook_balance w'.
Proof.
  intros Hw Hrun. destruct o; simpl in Hrun;
    apply world_of_Some in Hrun as [v Hv].
  - eapply MIDIListCreate_balance; eassumption.
  - eapply MIDIListDestroy_balance; eassumption.
  - eapply MIDIListRetain_balance; eassumption.
  - eapply MIDIListRelease_balance; eassumption.
  - eapply MIDIListAdd_balance; eassumption.
  - eapply MIDIListRemove_balance; eassumption.
  - eapply MIDIListApply_balance; eassumption.
Qed.

(** [world1] is what creating a list and adding 7, 8, 7 makes of the
    empty process. *)
Lemma world1_reached :
  exists w1 w2 w3,
    run_op (OpCreate true 100 200) world0 = Some w1 /\
    run_op (OpAdd true 1 7) w1 = Some w2 /\
    run_op (OpAdd true 1 8) w2 = Some w3 /\
    run_op (OpAdd true 1 7) w3 = Some world1.
Proof. do 3 eexists. repeat split. Qed.

Lemma hook_balance_world1 : hook_balance world1.
Proof.
  destruct world1_reached as (w1 & w2 & w3 & H1 & H2 & H3 & H4).
  eapply run_op_balance; [|exact H4].
  eapply run_op_balance; [|exact H3].
  eapply run_op_balance; [|exact H2].
  eapply run_op_balance; [|exact H1].
  apply hook_balance_world0.
Qed.

(** *** Allocation failure *)

(** C1: when the allocation fails, [MIDIListCreate] returns [NULL] with
    [MIDIErrorNumber] set to [ENOMEM] and neither a list nor a block nor a
    hook call comes into being; [MIDIListAdd] on a non-[NULL] list and a
    non-[NULL] item does not return an error: it stores through the
    [NULL] result of [malloc], which is undefined behaviour. *)
Theorem alloc_failure_create_add (retain_ release_ lst item : ptr) (w : World) :
  lst <> NULL -> item <> NULL ->
  (exists w', MIDIListCreate false retain_ release_ w = Returns NULL w' /\
              MIDIErrorNumber w' = ENOMEM /\ ENOMEM <> 0 /\
              heap w' = heap w /\ brk w' = brk w /\ calls w' = calls w) /\
  MIDIListAdd false lst item w = Undefined.
Proof.
  intros Hl Hi. split.
  - unfold MIDIListCreate, malloc. cbv beta iota.
    rewrite decide_False by (intros E; now apply E).
    eexists. split; [reflexivity|].
    unfold MIDILogLocation. pose proof ENOMEM_pos.
    destruct (decide _); simpl; repeat split; lia.
  - unfold MIDIListAdd, malloc.
    rewrite !decide_True by assumption. cbv beta iota.
    now rewrite decide_False by (intros E; now apply E).
Qed.

(** *** Rejected arguments *)

(** C2: [MIDIListAdd], [MIDIListRemove] and [MIDIListApply] called with a
    [NULL] list return [EFAULT]; called with a list that is not [NULL]
    and a [NULL] item (a [NULL] function for [MIDIListApply]) they return
    [EINVAL].  In each case the code returned is not zero, it is stored in
    [MIDIErrorNumber], and no list is modified. *)
Theorem null_arguments_rejected (ok : bool) (lst item info : ptr)
    (func : option (ptr -> ptr -> Z)) (w : World) :
  lst <> NULL ->
  fails_with (MIDIListAdd ok NULL item w) EFAULT w /\
  fails_with (MIDIListRemove NULL item w) EFAULT w /\
  fails_with (MIDIListApply NULL info func w) EFAULT w /\
  fails_with (MIDIListAdd ok lst NULL w) EINVAL w /\
  fails_with (MIDIListRemove lst NULL w) EINVAL w /\
  fails_with (MIDIListApply lst info None w) EINVAL w.
Proof.
  intros Hl.
  assert (Hfail : forall msg kind, 0 < kind ->
            fails_with (MIDIPrecondFailed msg kind kind w) kind w).
  { intros msg kind Hk. eexists. split; [reflexivity|].
    unfold MIDILogLocation. destruct (decide _); simpl; repeat split; lia. }
  pose proof EFAULT_pos. pose proof EINVAL_pos.
  unfold MIDIListAdd, MIDIListRemove, MIDIListApply.
  rewrite !(decide_False (P := NULL <> NULL)) by (intros E; now apply E).
  rewrite !(decide_True (P := lst <> NULL)) by assumption.
  repeat split; apply Hfail; assumption.
Qed.

(** *** Removal *)

(** C4: on a list that is not [NULL] and an item that is not [NULL],
    [MIDIListRemove] returns 0; the list then holds, in their former
    order, exactly the entries whose item differs from the given one; one
    release is made for each entry removed (through the release hook when
    the list has one); and when the item occurs nowhere the list and the
    hook calls are as before. *)
Theorem MIDIListRemove_removes_all (lst item : ptr) (l : MIDIList) (w : World) :
  lst <> NULL -> item <> NULL -> heap w !! lst = Some l ->
  exists w',
    MIDIListRemove lst item w = Returns 0 w' /\
    heap w' = <[lst := mkMIDIList (refs l) (retain l) (release l)
                         (filter (fun e => e <> item) (data l))]> (heap w) /\
    calls w' = calls w ++
      (if decide (release l <> NULL)
       then repeat (EvRelease lst (release l) item) (stored item (data l))
       else []) /\
    MIDIErrorNumber w' = MIDIErrorNumber w /\
    (stored item (data l) = 0%nat -> heap w' = heap w /\ calls w' = calls w).
Proof.
  intros Hl Hi Hlk. unfold MIDIListRemove.
  rewrite !decide_True by assumption. rewrite Hlk, remove_entries_spec.
  eexists. split; [reflexivity|]. simpl.
  rewrite filter_eq_repeat, flat_map_release_repeat by assumption.
  split; [reflexivity|]. split; [reflexivity|]. split; [reflexivity|].
  intros Hnone. split.
  - rewrite stored_none_filter by assumption.
    apply insert_id. rewrite Hlk. now destruct l.
  - rewrite Hnone. simpl. destruct (decide _); apply app_nil_r.
Qed.

(** *** The retain/release balance *)

(** C3: every operation of list.c that returns keeps the retain/release
    balance of every list.  [MIDIListAdd] links the item in and retains
    it, [MIDIListRemove] releases each entry it unlinks and
    [MIDIListDestroy] releases every entry, each exactly once
    ([retain_call] and [release_call] are one call of the hook, or none
    when the hook or the item is [NULL]). *)
Theorem list_ops_keep_hook_balance (w : World) :
  hook_balance w ->
  (forall o w', run_op o w = Some w' -> hook_balance w') /\
  (forall lst l item, lst <> NULL -> item <> NULL -> heap w !! lst = Some l ->
     exists w', MIDIListAdd true lst item w = Returns 0 w' /\
       calls w' = calls w ++ retain_call lst l item /\
       heap w' = <[lst := mkMIDIList (refs l) (retain l) (release l)
                            (item :: data l)]> (heap w)) /\
  (forall lst l item, lst <> NULL -> item <> NULL -> heap w !! lst = Some l ->
     exists w', MIDIListRemove lst item w = Returns 0 w' /\
       calls w' = calls w ++
         flat_map (release_call lst l) (filter (fun e => e = item) (data l)) /\
       heap w' = <[lst := mkMIDIList (refs l) (retain l) (release l)
                            (filter (fun e => e <> item) (data l))]> (heap w)) /\
  (forall lst l, lst <> NULL -> heap w !! lst = Some l ->
     exists w', MIDIListDestroy lst w = Returns tt w' /\
       calls w' = calls w ++ flat_map (release_call lst l) (data l) /\
       heap w' = delete lst (heap w)).
Proof.
  intros Hw. split; [|split; [|split]].
  - intros o w'. now apply run_op_balance.
  - intros lst l item Hl Hi Hlk. unfold MIDIListAdd, malloc.
    rewrite !decide_True by assumption. cbv beta iota.
    destruct Hw as (Hb & _).
    rewrite decide_True by (unfold NULL; lia). simpl.
    rewrite Hlk, item_retain_calls. eexists. repeat split.
  - intros lst l item Hl Hi Hlk. unfold MIDIListRemove.
    rewrite !decide_True by assumption.
    rewrite Hlk, remove_entries_spec. eexists. repeat split.
  - intros lst l Hl Hlk. rewrite (MIDIListDestroy_calls lst l) by assumption.
    eexists. repeat split.
Qed.

(** Every process that calls of list.c make of a balanced process is
    balanced. *)
Lemma run_ops_balance os w w' :
  hook_balance w -> run_ops os w = Some w' -> hook_balance w'.
Proof.
  revert w. induction os as [|o os IH]; intros w Hw; simpl.
  - intros E. now injection E as <-.
  - destruct (run_op o w) as [w1|] eqn:Ho; [|discriminate].
    apply IH. eapply run_op_balance; eassumption.
Qed.

End ListProps.

(** *** The theorems on a process with one list, with the error numbers of Linux *)

Section ListWitnesses.
Import MIDIListC.

Lemma alloc_failure_create_add_witness :
  (exists w', MIDIListCreate false 100 200 world1 = Returns NULL w' /\
              MIDIErrorNumber w' = 12 /\ 12 <> 0 /\
              heap w' = heap world1 /\ brk w' = brk world1 /\
              calls w' = calls world1) /\
  MIDIListAdd false 1 9 world1 = Undefined.
Proof. refine (alloc_failure_create_add 100 200 1 9 world1 _ _); unfold NULL; lia. Defined.

Lemma null_arguments_rejected_witness :
  fails_with (MIDIListAdd true NULL 7 world1) 14 world1 /\
  fails_with (MIDIListRemove NULL 7 world1) 14 world1 /\
  fails_with (MIDIListApply NULL 0 (Some (fun _ _ => 1)) world1) 14 world1 /\
  fails_with (MIDIListAdd true 1 NULL world1) 22 world1 /\
  fails_with (MIDIListRemove 1 NULL world1) 22 world1 /\
  fails_with (MIDIListApply 1 0 None world1) 22 world1.
Proof.
  refine (null_arguments_rejected true 1 7 0 (Some (fun _ _ => 1)) world1 _).
  unfold NULL; lia.
Defined.

Lemma MIDIListRemove_removes_all_witness :
  exists w',
    MIDIListRemove 1 7 world1 = Returns 0 w' /\
    heap w' = <[1 := mkMIDIList 1 100 200 (filter (fun e => e <> 7) [7; 8; 7])]>
                (heap world1) /\
    calls w' = calls world1 ++
      (if decide (200 <> NULL) then repeat (EvRelease 1 200 7) (stored 7 [7; 8; 7])
       else []) /\
    MIDIErrorNumber w' = MIDIErrorNumber world1 /\
    (stored 7 [7; 8; 7] = 0%nat -> heap w' = heap world1 /\ calls w' = calls world1).
Proof.
  apply (MIDIListRemove_removes_all 1 7 (mkMIDIList 1 100 200 [7; 8; 7]) world1).
  - unfold NULL; lia.
  - unfold NULL; lia.
  - reflexivity.
Defined.

(** What the removal above leaves: the entry holding 8, after two
    releases of 7. *)
Example MIDIListRemove_world1 :
  exists w', MIDIListRemove 1 7 world1 = Returns 0 w' /\
    heap w' !! 1 = Some (mkMIDIList 1 100 200 [8]) /\
    calls w' = calls world1 ++ [EvRelease 1 200 7; EvRelease 1 200 7].
Proof. eexists. repeat split. Qed.

Lemma list_ops_keep_hook_balance_witness :
  (forall o w', run_op o world1 = Some w' -> hook_balance w') /\
  (forall lst l item, lst <> NULL -> item <> NULL -> heap world1 !! lst = Some l ->
     exists w', MIDIListAdd true lst item world1 = Returns 0 w' /\
       calls w' = calls world1 ++ retain_call lst l item /\
       heap w' = <[lst := mkMIDIList (refs l) (retain l) (release l)
                            (item :: data l)]> (heap world1)) /\
  (forall lst l item, lst <> NULL -> item <> NULL -> heap world1 !! lst = Some l ->
     exists w', MIDIListRemove lst item world1 = Returns 0 w' /\
       calls w' = calls world1 ++
         flat_map (release_call lst l) (filter (fun e => e = item) (data l)) /\
       heap w' = <[lst := mkMIDIList (refs l) (retain l) (release l)
                            (filter (fun e => e <> item) (data l))]> (heap world1)) /\
  (forall lst l, lst <> NULL -> heap world1 !! lst = Some l ->
     exists w', MIDIListDestroy lst world1 = Returns tt w' /\
       calls w' = calls world1 ++ flat_map (release_call lst l) (data l) /\
       heap w' = delete lst (heap world1)).
Proof. exact (list_ops_keep_hook_balance world1 hook_balance_world1). Defined.

(** Destroying the list of [world1] releases 7, 8 and 7, in the order of
    the chain. *)
Example MIDIListDestroy_world1 :
  exists w', MIDIListDestroy 1 world1 = Returns tt w' /\
    heap w' = ∅ /\
    calls w' = calls world1 ++ [EvRelease 1 200 7; EvRelease 1 200 8; EvRelease 1 200 7].
Proof. eexists. repeat split. Qed.

End ListWitnesses.

(** ** The RTP transport *)

(** From here on [lia] also decides goals with division and remainder by
    constants. *)
Ltac Zify.zify_post_hook ::= Z.to_euclidean_division_equations.

Section TransportProps.
Import Driver.
Local Open Scope N_scope.

Lemma decode_vlq_more (fuel : nat) (m : N) (tail : list N) :
  m < 128 ^ N.of_nat fuel ->
  decode_vlq_from 0 (vlq_more fuel m ++ tail) = decode_vlq_from m tail.
Proof.
  revert m tail. induction fuel as [|f IH]; intros m tail Hm.
  - simpl in *. assert (m = 0) as -> by lia. reflexivity.
  - simpl. destruct (N.eqb_spec m 0) as [->|Hne]; [reflexivity|].
    rewrite <- app_assoc. rewrite IH.
    + simpl.
      assert ((128 + m mod 128 <? 128) = false) as -> by (apply N.ltb_ge; lia).
      f_equal. lia.
    + rewrite Nat2N.inj_succ, N.pow_succ_r' in Hm.
      apply N.Div0.div_lt_upper_bound. lia.
Qed.

Lemma size_fuel (n : N) : n / 128 < 128 ^ N.of_nat (N.to_nat (N.size n)).
Proof.
  rewrite N2Nat.id.
  apply N.le_lt_trans with n.
  - apply N.Div0.div_le_upper_bound. lia.
  - apply N.lt_le_trans with (2 ^ N.size n).
    + apply N.size_gt.
    + apply N.pow_le_mono_l. lia.
Qed.

(** Reading a delta-time that was written gives it back, whatever
    follows. *)
Lemma decode_encode_vlq (n : N) (tail : list N) :
  decode_vlq (encode_vlq n ++ tail) = Some (n, tail).
Proof.
  unfold decode_vlq, encode_vlq.
  rewrite <- app_assoc, decode_vlq_more by apply size_fuel.
  simpl.
  assert ((n mod 128 <? 128) = true) as ->.
  { apply N.ltb_lt. apply N.mod_lt. lia. }
  do 2 f_equal. lia.
Qed.

Lemma encode_vlq_length (n : N) : (1 <= length (encode_vlq n))%nat.
Proof. unfold encode_vlq. rewrite length_app. simpl. lia. Qed.

Example encode_vlq_ex : encode_vlq 300 = [130; 44].
Proof. reflexivity. Qed.

Lemma of_be16_be16 (n : N) :
  match be16 n with
  | [a; b] => of_be16 a b = n mod 65536
  | _ => False
  end.
Proof. unfold be16, of_be16. lia. Qed.

Lemma of_be32_be32 (n : N) :
  match be32 n with
  | [a; b; c; d] => of_be32 a b c d = n mod 4294967296
  | _ => False
  end.
Proof. unfold be32, of_be32. lia. Qed.

Section WithCodecs.
Context {MidiCommand : Type} `{Formatter MidiCommand} `{LengthPrefix}.
Hypothesis Hfmt : formatter_lawful.

Lemma parse_commands_step (fuel : nat) (bytes : list N) :
  bytes <> [] ->
  parse_commands (S fuel) bytes =
  match decode_vlq bytes with
  | None => ([], false)
  | Some (dt, rest) =>
      match fmt_decode rest with
      | None => ([], false)
      | Some (c, n) =>
          if (n <=? length rest)%nat then
            let (cs, ok) := parse_commands fuel (drop n rest) in ((dt, c) :: cs, ok)
          else ([], false)
      end
  end.
Proof. destruct bytes; [contradiction|reflexivity]. Qed.

(** Parsing a command section that was written gives the commands and
    their delta-times back, with no fault. *)
Lemma parse_command_section (commands : list (N * MidiCommand)) (fuel : nat) :
  (length (command_section commands) <= fuel)%nat ->
  parse_commands fuel (command_section commands) = (commands, true).
Proof.
  revert fuel. induction commands as [|[dt c] cs IH]; intros fuel Hfuel.
  - destruct fuel; reflexivity.
  - unfold command_section in *. simpl in *.
    pose proof (encode_vlq_length dt) as Hlen.
    rewrite !length_app in Hfuel.
    destruct fuel as [|f]; [lia|].
    rewrite parse_commands_step.
    + rewrite <- app_assoc, decode_encode_vlq.
      rewrite Hfmt.
      assert ((length (fmt_encode c) <=?
               length (fmt_encode c ++ flat_map
                 (fun dc => encode_vlq (fst dc) ++ fmt_encode (snd dc)) cs))%nat = true) as ->.
      { apply Nat.leb_le. rewrite length_app. lia. }
      rewrite drop_app_length, IH by lia. reflexivity.
    + intros E. apply (f_equal (@length N)) in E.
      rewrite !length_app in E. simpl in E. lia.
Qed.

End WithCodecs.

(** C6: decoding the datagram that the transport's encode produces for a
    list of commands with delta-times gives that list back, in order and
    with the same delta-times, with no decode fault, together with the
    sequence number and the SSRC that were encoded.  The message
    formatter and the length prefix are the interfaces of the
    specification, each assumed to read back what it writes. *)
Theorem rtp_encode_decode_roundtrip {MidiCommand : Type}
    `{Formatter MidiCommand} `{LengthPrefix}
    (pt seq ssrc now : N) (commands : list (N * MidiCommand)) (dgram : list N) :
  formatter_lawful -> length_prefix_lawful -> pt < 128 ->
  rtp_encode pt seq ssrc now commands = Some dgram ->
  rtp_decode pt dgram =
  Decoded (seq mod 65536) (ssrc mod 4294967296) commands true.
Proof.
  intros Hfmt Hlen Hpt. unfold rtp_encode.
  destruct (len_encode (length (command_section commands))) as [prefix|] eqn:Hp;
    [|intros; discriminate].
  intros E. injection E as <-.
  pose proof (of_be16_be16 seq) as H16. pose proof (of_be32_be32 ssrc) as H32.
  unfold rtp_decode, rtp_header.
  unfold be16 in *. unfold be32 in *. cbn [app].
  change (128 / 64 =? 2) with true.
  assert (((128 + pt) mod 128 =? pt) = true) as -> by (apply N.eqb_eq; lia).
  cbn [andb].
  rewrite (Hlen _ _ _ Hp).
  rewrite firstn_all.
  rewrite (parse_command_section Hfmt) by lia.
  rewrite Nat.leb_refl. cbn [andb].
  rewrite H16, H32. reflexivity.
Qed.

Lemma three_octet_lawful : formatter_lawful (H := three_octet_formatter).
Proof. intros [[s d1] d2] rest. reflexivity. Qed.

Lemma len12_lawful : length_prefix_lawful (H := len12_prefix).
Proof.
  intros n p rest. cbn. unfold len12_encode.
  destruct (N.ltb_spec (N.of_nat n) 4096) as [Hn|Hn]; [|intros; discriminate].
  intros E. injection E as <-. cbn. do 2 f_equal. lia.
Qed.

Lemma rtp_encode_decode_roundtrip_witness :
  rtp_encode (H := three_octet_formatter) (H0 := len12_prefix) 97 65535 51966 12345
    [(0, (144, 60, 100)); (300, (128, 60, 0))] =
  Some [128; 225; 255; 255; 0; 0; 48; 57; 0; 0; 202; 254;
        128; 9; 0; 144; 60; 100; 130; 44; 128; 60; 0] /\
  rtp_decode (H := three_octet_formatter) (H0 := len12_prefix) 97
    [128; 225; 255; 255; 0; 0; 48; 57; 0; 0; 202; 254;
     128; 9; 0; 144; 60; 100; 130; 44; 128; 60; 0] =
  Decoded (65535 mod 65536) (51966 mod 4294967296)
    [(0, (144, 60, 100)); (300, (128, 60, 0))] true.
Proof.
  split; [reflexivity|].
  refine (rtp_encode_decode_roundtrip (H := three_octet_formatter) (H0 := len12_prefix)
            97 65535 51966 12345 _ _ three_octet_lawful len12_lawful _ _);
    reflexivity.
Defined.

(** A datagram of another payload type is a protocol error, and a
    command section cut short keeps the commands parsed before the
    fault. *)
Example rtp_decode_wrong_type :
  rtp_decode (H := three_octet_formatter) (H0 := len12_prefix) 97
    [128; 224; 0; 1; 0; 0; 0; 0; 0; 0; 0; 1; 128; 0] = ProtocolError.
Proof. reflexivity. Qed.

Example rtp_decode_truncated :
  rtp_decode (H := three_octet_formatter) (H0 := len12_prefix) 97
    [128; 225; 0; 1; 0; 0; 0; 0; 0; 0; 0; 1; 128; 6; 0; 144; 60; 100; 0; 128] =
  Decoded 1 1 [(0, (144, 60, 100))] false.
Proof. reflexivity. Qed.

(** *** Sequence numbers *)

Section SendProps.
Context {MidiCommand : Type} `{Formatter MidiCommand} `{LengthPrefix}.
Variable pt : N.

Lemma session_send_seq now commands (s s' : Session) dgram :
  session_send pt now commands s = Some (dgram, s') ->
  send_seq (transport s') = (send_seq (transport s) + 1) mod 65536 /\
  state s' = state s.
Proof.
  unfold session_send, rtp_send.
  destruct (state s); try (intros; discriminate).
  destruct (rtp_encode _ _ _ _ _); [|intros; discriminate].
  intros E. injection E as <- <-. split; reflexivity.
Qed.

End SendProps.

(** C5: after a session has sent [k] packets, its outbound sequence
    number is the initial one plus [k], modulo 65536. *)
Theorem session_sequence_number {MidiCommand : Type}
    `{Formatter MidiCommand} `{LengthPrefix} (pt : N)
    (packets : list (N * list (N * MidiCommand))) (s s' : Session)
    (dgrams : list (list N)) :
  send_seq (transport s) < 65536 ->
  session_send_all pt packets s = Some (dgrams, s') ->
  send_seq (transport s') =
    (send_seq (transport s) + N.of_nat (length packets)) mod 65536 /\
  length dgrams = length packets.
Proof.
  revert s dgrams. induction packets as [|[now commands] more IH]; intros s dgrams Hs.
  - simpl. intros E. injection E as <- <-.
    rewrite N.add_0_r, N.mod_small by assumption. split; reflexivity.
  - cbn [session_send_all].
    destruct (session_send pt now commands s) as [[dgram s1]|] eqn:Hsend;
      [|intros; discriminate].
    destruct (session_send_all pt more s1) as [[ds s2]|] eqn:Hall;
      [|intros; discriminate].
    intros E. injection E as <- <-.
    apply session_send_seq in Hsend as [Hseq _].
    destruct (IH s1 ds) as [IH1 IH2]; [rewrite Hseq; lia|assumption|].
    rewrite IH1, Hseq. cbn [length]. rewrite IH2, Nat2N.inj_succ.
    split; [lia|reflexivity].
Qed.

Lemma session_sequence_number_witness :
  exists dgrams s',
    session_send_all (H := three_octet_formatter) (H0 := len12_prefix) 97
      [(10, [(0, (144, 60, 100))]); (20, []); (30, [(5, (128, 60, 0))])]
      (mkSession Established 7 1 (mkTransport 65534 51966) (mkClock 0 0 true) None 0)
    = Some (dgrams, s') /\
    send_seq (transport s') = (65534 + N.of_nat 3) mod 65536 /\
    length dgrams = 3%nat.
Proof.
  do 2 eexists. split; [reflexivity|].
  refine (session_sequence_number (H := three_octet_formatter) (H0 := len12_prefix) 97
            [(10, [(0, (144, 60, 100))]); (20, []); (30, [(5, (128, 60, 0))])]
            (mkSession Established 7 1 (mkTransport 65534 51966) (mkClock 0 0 true) None 0)
            _ _ _ _);
    reflexivity.
Defined.

End TransportProps.

(** ** The clock handshake *)

Section ClockProps.
Import Driver.



End ClockProps.

(** ** The session state machine *)

Section SessionProps.
Import Driver.

(** C8: in state [Inviting], an acceptance or a rejection whose token is
    not the initiator token that was sent leaves the session as it is
    and sends nothing; a rejection with the token that was sent closes
    the session. *)
Theorem inviting_token_check (now : Z) (s : Session) (v tok ssrc : N)
    (name : string) :
  state s = Inviting ->
  (tok <> token s ->
   handle_control now (Accepted v tok ssrc name) s = (s, []) /\
   handle_control now (Rejected v tok ssrc) s = (s, [])) /\
  state (fst (handle_control now (Rejected v (token s) ssrc) s)) = Closed.
Proof.
  intros Hs. unfold handle_control. rewrite Hs. split.
  - intros Hne. apply N.eqb_neq in Hne. rewrite Hne. split; reflexivity.
  - rewrite N.eqb_refl. reflexivity.
Qed.

(** An idle session that invites with a token and then receives a
    rejection: with that token it is closed, with another it is still
    inviting. *)
Lemma invite_then_reject (now : Z) (s : Session) (v tok tok' ssrc : N)
    (name : string) :
  state s = Idle ->
  let s1 := fst (invite tok name s) in
  state s1 = Inviting /\
  state (fst (handle_control now (Rejected v tok ssrc) s1)) = Closed /\
  (tok' <> tok -> handle_control now (Rejected v tok' ssrc) s1 = (s1, [])).
Proof.
  intros Hs. unfold invite. rewrite Hs. cbn.
  rewrite N.eqb_refl. repeat split.
  intros Hne. apply N.eqb_neq in Hne. now rewrite Hne.
Qed.

Lemma inviting_token_check_witness :
  let s := mkSession Inviting 7 0 (mkTransport 0 51966) (mkClock 0 0 false) None 0 in
  (8%N <> token s ->
   handle_control 0 (Accepted 2 8 99 "peer") s = (s, []) /\
   handle_control 0 (Rejected 2 8 99) s = (s, [])) /\
  state (fst (handle_control 0 (Rejected 2 (token s) 99) s)) = Closed.
Proof.
  exact (inviting_token_check 0
           (mkSession Inviting 7 0 (mkTransport 0 51966) (mkClock 0 0 false) None 0)
           2 8 99 "peer" eq_refl).
Defined.

End SessionProps.

(** ** The message queue *)

Section QueueProps.
Import Driver.
Context {MidiCommand : Type}.
Implicit Types (q : list (Queued MidiCommand)) (s : N) (cap n : nat).

(** One tick takes the first [cap] messages queued for the session and
    leaves every other message where it is. *)
Lemma take_batch_spec cap s q :
  fst (take_batch cap s q) = take cap (queued_for s q) /\
  queued_for s (snd (take_batch cap s q)) = drop cap (queued_for s q) /\
  (forall s', s' <> s ->
     queued_for s' (snd (take_batch cap s q)) = queued_for s' q).
Proof.
  revert cap. induction q as [|e q IH]; intros cap.
  - simpl. destruct cap; repeat split.
  - simpl. destruct (N.eqb_spec (destination e) s) as [He|He].
    + destruct cap as [|cap'].
      * simpl. rewrite He, N.eqb_refl. repeat split.
      * destruct (IH cap') as (IH1 & IH2 & IH3).
        destruct (take_batch cap' s q) as [batch rest]. simpl in *.
        rewrite IH1, IH2. repeat split.
        intros s' Hs'. rewrite (IH3 s' Hs').
        destruct (N.eqb_spec (destination e) s'); [congruence|reflexivity].
    + destruct (IH cap) as (IH1 & IH2 & IH3).
      destruct (take_batch cap s q) as [batch rest]. simpl in *.
      destruct (N.eqb_spec (destination e) s); [contradiction|].
      rewrite IH1, IH2. repeat split.
      intros s' Hs'. rewrite (IH3 s' Hs'). reflexivity.
Qed.

Lemma take_batch_length cap s q : (length (fst (take_batch cap s q)) <= cap)%nat.
Proof.
  destruct (take_batch_spec cap s q) as [-> _].
  rewrite length_take. lia.
Qed.

(** [n] ticks send the first [n * cap] messages queued for the session,
    in their order. *)
Lemma ticks_spec n cap s q :
  concat (fst (ticks n cap s q)) = take (n * cap) (queued_for s q) /\
  queued_for s (snd (ticks n cap s q)) = drop (n * cap) (queued_for s q) /\
  (forall s', s' <> s -> queued_for s' (snd (ticks n cap s q)) = queued_for s' q) /\
  Forall (fun batch => (length batch <= cap)%nat) (fst (ticks n cap s q)).
Proof.
  revert q. induction n as [|n IH]; intros q.
  - simpl. repeat split. constructor.
  - simpl.
    destruct (take_batch_spec cap s q) as (T1 & T2 & T3).
    pose proof (take_batch_length cap s q) as T4.
    destruct (take_batch cap s q) as [batch q1]. simpl in *.
    destruct (IH q1) as (IH1 & IH2 & IH3 & IH4).
    destruct (ticks n cap s q1) as [batches q2]. simpl in *.
    split; [|split; [|split]].
    + rewrite IH1, T1, T2. apply take_take_drop.
    + rewrite IH2, T2, drop_drop. reflexivity.
    + intros s' Hs'. rewrite (IH3 s' Hs'). apply (T3 s' Hs').
    + constructor; assumption.
Qed.

Lemma queued_for_length s q : (length (queued_for s q) <= length q)%nat.
Proof.
  induction q as [|e q IH]; simpl; [lia|].
  destruct (destination e =? s)%N; simpl; lia.
Qed.

(** C9: the queue drops nothing.  Whatever the cap and the number of
    ticks, the batches sent followed by what is still queued for the
    session are the messages that were queued for it, in their order, no
    batch exceeds the cap, and the messages for other sessions stay
    queued; and with a cap of at least one message, once the ticks have
    room for all of them, every message queued for the session has been
    sent, in the order of enqueueing. *)
Theorem queue_never_drops n cap s q :
  concat (fst (ticks n cap s q)) ++ queued_for s (snd (ticks n cap s q))
    = queued_for s q /\
  Forall (fun batch => (length batch <= cap)%nat) (fst (ticks n cap s q)) /\
  (forall s', s' <> s -> queued_for s' (snd (ticks n cap s q)) = queued_for s' q) /\
  ((0 < cap)%nat -> (length (queued_for s q) <= n * cap)%nat ->
   concat (fst (ticks n cap s q)) = queued_for s q /\
   queued_for s (snd (ticks n cap s q)) = []).
Proof.
  destruct (ticks_spec n cap s q) as (H1 & H2 & H3 & H4).
  rewrite H1, H2. split; [apply take_drop|]. split; [assumption|].
  split; [assumption|].
  intros _ Hlen. split.
  - now apply take_ge.
  - now apply drop_ge.
Qed.

(** With a cap of at least one, as many ticks as there are messages are
    enough. *)
Corollary queue_drained cap s q :
  (0 < cap)%nat ->
  concat (fst (ticks (length q) cap s q)) = queued_for s q.
Proof.
  intros Hcap.
  destruct (ticks_spec (length q) cap s q) as (-> & _).
  apply take_ge. pose proof (queued_for_length s q). nia.
Qed.

End QueueProps.

Section QueueWitnesses.
Import Driver.

Lemma queue_never_drops_witness :
  let q := [mkQueued 1 0 10%N 0; mkQueued 2 0 20%N 0; mkQueued 1 5 11%N 1;
            mkQueued 1 0 12%N 2] in
  concat (fst (ticks 2 2 1 q)) ++ queued_for 1 (snd (ticks 2 2 1 q))
    = queued_for 1 q /\
  Forall (fun batch => (length batch <= 2)%nat) (fst (ticks 2 2 1 q)) /\
  (forall s', s' <> 1%N -> queued_for s' (snd (ticks 2 2 1 q)) = queued_for s' q) /\
  ((0 < 2)%nat -> (length (queued_for 1 q) <= 2 * 2)%nat ->
   concat (fst (ticks 2 2 1 q)) = queued_for 1 q /\
   queued_for 1 (snd (ticks 2 2 1 q)) = []).
Proof.
  exact (queue_never_drops 2 2 1
           [mkQueued 1 0 10%N 0; mkQueued 2 0 20%N 0; mkQueued 1 5 11%N 1;
            mkQueued 1 0 12%N 2]).
Defined.

(** The two ticks above: the first sends commands 10 and 11, the second
    command 12; the message for session 2 stays queued. *)
Example ticks_ex :
  ticks 2 2 1 [mkQueued 1 0 10%N 0; mkQueued 2 0 20%N 0; mkQueued 1 5 11%N 1;
               mkQueued 1 0 12%N 2] =
  ([[mkQueued 1 0 10%N 0; mkQueued 1 5 11%N 1]; [mkQueued 1 0 12%N 2]],
   [mkQueued 2 0 20%N 0]).
Proof. reflexivity. Qed.

(** A thousand commands against a cap of seven: 143 ticks send them all,
    in order. *)
Example thousand_commands :
  let q := map (fun i => mkQueued 1 0 (N.of_nat i) 0) (seq 0 1000) in
  concat (fst (ticks 143 7 1 q)) = q /\ snd (ticks 143 7 1 q) = [].
Proof. vm_compute. split; reflexivity. Qed.

End QueueWitnesses.

(** * Further properties of the sources *)

(** ** More on the value macros *)

Section MacroMore.
Import Midi.

(** A value packed above [n] low bits is the high part times [2^n] plus
    the low part. *)
Lemma pack_value (hi lo n : Z) :
  0 <= n -> 0 <= lo < 2 ^ n ->
  Z.lor (Z.shiftl hi n) lo = hi * 2 ^ n + lo.
Proof.
  intros Hn Hlo.
  rewrite (Z.div_mod (Z.lor (Z.shiftl hi n) lo) (2 ^ n)) by lia.
  rewrite <- Z.shiftr_div_pow2 by lia.
  rewrite pack_high, pack_low by lia. ring.
Qed.

Lemma MIDI_LONG_VALUE_arith (m l : Z) :
  MIDI_LONG_VALUE m l = (m mod 128) * 128 + l mod 128.
Proof.
  unfold MIDI_LONG_VALUE. change 0x7f with (2 ^ 7 - 1).
  rewrite !land_mask by lia.
  rewrite pack_value by lia. reflexivity.
Qed.

Lemma MIDI_NIBBLE_VALUE_arith (h l : Z) :
  MIDI_NIBBLE_VALUE h l = h * 16 + l mod 16.
Proof.
  unfold MIDI_NIBBLE_VALUE. change 0xf with (2 ^ 4 - 1).
  rewrite land_mask by lia.
  rewrite pack_value by lia. reflexivity.
Qed.

(** X1: [MIDI_BOOL] gives [MIDI_ON] exactly for the values from 64 up and
    [MIDI_OFF] for all others, and normalising twice is normalising
    once. *)
Theorem MIDI_BOOL_threshold (v : Z) :
  (MIDI_BOOL v = MIDI_ON <-> 64 <= v) /\
  (MIDI_BOOL v = MIDI_OFF <-> v < 64) /\
  MIDI_BOOL (MIDI_BOOL v) = MIDI_BOOL v.
Proof.
  unfold MIDI_BOOL, MIDI_ON, MIDI_OFF.
  destruct (Z.leb_spec 64 v) as [Hv|Hv]; cbn; repeat split; intros; try lia;
    discriminate.
Qed.

(** X2: whatever the values of its two operands, [MIDI_LONG_VALUE] is a
    14-bit value made of the seven low bits of each; [MIDI_MSB] and
    [MIDI_LSB] give those seven bits back; and a 14-bit value taken
    apart with [MIDI_MSB] and [MIDI_LSB] and put together again is the
    value.  The operands are values: the macro does not parenthesise [m]
    and [l], so an operand that is an expression with an operator of
    lower precedence than [&] has to be parenthesised by the caller.
    (In [MIDI_LONG_VALUE( MIDI_MSB( v ), MIDI_LSB( v ) )] the expansions
    end in [& 0x7f] and meet [& 0x7f], which groups to the left, so the
    expression has the value of the composition.) *)
Theorem MIDI_LONG_VALUE_14bit (m l v : Z) :
  0 <= v < 16384 ->
  0 <= MIDI_LONG_VALUE m l < 16384 /\
  MIDI_MSB (MIDI_LONG_VALUE m l) = m mod 128 /\
  MIDI_LSB (MIDI_LONG_VALUE m l) = l mod 128 /\
  MIDI_LONG_VALUE (MIDI_MSB v) (MIDI_LSB v) = v.
Proof.
  intros Hv.
  assert (Hmsb : forall x, MIDI_MSB x = (x / 128) mod 128).
  { intros x. unfold MIDI_MSB. change 0x7f with (2 ^ 7 - 1).
    rewrite land_mask by lia. now rewrite Z.shiftr_div_pow2 by lia. }
  assert (Hlsb : forall x, MIDI_LSB x = x mod 128).
  { intros x. unfold MIDI_LSB. change 0x7f with (2 ^ 7 - 1).
    now rewrite land_mask by lia. }
  rewrite !Hmsb, !Hlsb, !MIDI_LONG_VALUE_arith.
  repeat split; lia.
Qed.

Lemma MIDI_LONG_VALUE_14bit_witness :
  0 <= MIDI_LONG_VALUE (-1) 0x1ff < 16384 /\
  MIDI_MSB (MIDI_LONG_VALUE (-1) 0x1ff) = (-1) mod 128 /\
  MIDI_LSB (MIDI_LONG_VALUE (-1) 0x1ff) = 0x1ff mod 128 /\
  MIDI_LONG_VALUE (MIDI_MSB 0x2345) (MIDI_LSB 0x2345) = 0x2345.
Proof. apply (MIDI_LONG_VALUE_14bit (-1) 0x1ff 0x2345); lia. Defined.

(** X3: a byte taken apart with [MIDI_HIGH_NIBBLE] and [MIDI_LOW_NIBBLE]
    and put together with [MIDI_NIBBLE_VALUE] is the byte.
    [MIDI_NIBBLE_VALUE] keeps the four low bits of its second operand
    but all of its first: for a first operand from 0 up to the largest
    that [<< 4] shifts without overflow of [int] (below 2^27), the
    result is a byte only when the first operand is below 16. *)
Theorem MIDI_NIBBLE_VALUE_byte (h l b : Z) :
  0 <= h < 134217728 -> 0 <= b < 256 ->
  MIDI_NIBBLE_VALUE (MIDI_HIGH_NIBBLE b) (MIDI_LOW_NIBBLE b) = b /\
  MIDI_LOW_NIBBLE (MIDI_NIBBLE_VALUE h l) = l mod 16 /\
  (MIDI_NIBBLE_VALUE h l < 256 <-> h < 16) /\
  0 <= MIDI_NIBBLE_VALUE h l <= 2147483647.
Proof.
  intros Hh Hb.
  assert (Hhigh : forall x, MIDI_HIGH_NIBBLE x = (x / 16) mod 16).
  { intros x. unfold MIDI_HIGH_NIBBLE. change 0xf with (2 ^ 4 - 1).
    rewrite land_mask by lia. now rewrite Z.shiftr_div_pow2 by lia. }
  assert (Hlow : forall x, MIDI_LOW_NIBBLE x = x mod 16).
  { intros x. unfold MIDI_LOW_NIBBLE. change 0xf with (2 ^ 4 - 1).
    now rewrite land_mask by lia. }
  rewrite !Hhigh, !Hlow, !MIDI_NIBBLE_VALUE_arith.
  repeat split; intros; lia.
Qed.

Lemma MIDI_NIBBLE_VALUE_byte_witness :
  MIDI_NIBBLE_VALUE (MIDI_HIGH_NIBBLE 0xb7) (MIDI_LOW_NIBBLE 0xb7) = 0xb7 /\
  MIDI_LOW_NIBBLE (MIDI_NIBBLE_VALUE 0xf0 0x1f) = 0x1f mod 16 /\
  (MIDI_NIBBLE_VALUE 0xf0 0x1f < 256 <-> 0xf0 < 16) /\
  0 <= MIDI_NIBBLE_VALUE 0xf0 0x1f <= 2147483647.
Proof. apply (MIDI_NIBBLE_VALUE_byte 0xf0 0x1f 0xb7); lia. Defined.

(** X4: [MIDI_NIBBLE_VALUE] of a channel voice status (note off to pitch
    wheel change) and any channel is a status byte from 0x80 up and below
    the system messages, with the status in its high nibble and the four
    low bits of the channel in its low nibble; so [MIDI_CHANNEL_BASE]
    and [MIDI_CHANNEL_ALL] give the bytes of channels 1 and 16. *)
Theorem channel_status_byte (status channel : Z) :
  MIDI_STATUS_NOTE_OFF <= status <= MIDI_STATUS_PITCH_WHEEL_CHANGE ->
  0x80 <= MIDI_NIBBLE_VALUE status channel < MIDI_STATUS_SYSTEM_EXCLUSIVE /\
  MIDI_HIGH_NIBBLE (MIDI_NIBBLE_VALUE status channel) = status /\
  MIDI_LOW_NIBBLE (MIDI_NIBBLE_VALUE status channel) = channel mod 16 /\
  MIDI_NIBBLE_VALUE status MIDI_CHANNEL_BASE = MIDI_NIBBLE_VALUE status MIDI_CHANNEL_1 /\
  MIDI_NIBBLE_VALUE status MIDI_CHANNEL_ALL = MIDI_NIBBLE_VALUE status MIDI_CHANNEL_16.
Proof.
  unfold MIDI_STATUS_NOTE_OFF, MIDI_STATUS_PITCH_WHEEL_CHANGE,
    MIDI_STATUS_SYSTEM_EXCLUSIVE, MIDI_CHANNEL_BASE, MIDI_CHANNEL_ALL,
    MIDI_CHANNEL_1, MIDI_CHANNEL_16.
  intros Hs.
  unfold MIDI_HIGH_NIBBLE, MIDI_LOW_NIBBLE. change 0xf with (2 ^ 4 - 1).
  rewrite !land_mask by lia. rewrite Z.shiftr_div_pow2 by lia.
  rewrite !MIDI_NIBBLE_VALUE_arith.
  repeat split; lia.
Qed.

Lemma channel_status_byte_witness :
  0x80 <= MIDI_NIBBLE_VALUE MIDI_STATUS_NOTE_ON 0x1f < MIDI_STATUS_SYSTEM_EXCLUSIVE /\
  MIDI_HIGH_NIBBLE (MIDI_NIBBLE_VALUE MIDI_STATUS_NOTE_ON 0x1f) = MIDI_STATUS_NOTE_ON /\
  MIDI_LOW_NIBBLE (MIDI_NIBBLE_VALUE MIDI_STATUS_NOTE_ON 0x1f) = 0x1f mod 16 /\
  MIDI_NIBBLE_VALUE MIDI_STATUS_NOTE_ON MIDI_CHANNEL_BASE =
    MIDI_NIBBLE_VALUE MIDI_STATUS_NOTE_ON MIDI_CHANNEL_1 /\
  MIDI_NIBBLE_VALUE MIDI_STATUS_NOTE_ON MIDI_CHANNEL_ALL =
    MIDI_NIBBLE_VALUE MIDI_STATUS_NOTE_ON MIDI_CHANNEL_16.
Proof.
  apply (channel_status_byte MIDI_STATUS_NOTE_ON 0x1f).
  unfold MIDI_STATUS_NOTE_OFF, MIDI_STATUS_NOTE_ON, MIDI_STATUS_PITCH_WHEEL_CHANGE. lia.
Defined.

End MacroMore.

(** ** More on the list container *)

Section ListMore.
Import MIDIListC.
Context `{Errno}.

Lemma set_heap_same w : set_heap (heap w) w = w.
Proof. now destruct w. Qed.

Lemma only_about_nil a : only_about a [].
Proof. intros b x _. split; reflexivity. Qed.

Lemma only_about_retain_call a l item : only_about a (retain_call a l item).
Proof.
  intros b x Hb. rewrite count_retain_retain_call, count_release_retain_call.
  rewrite decide_False by (intros [? _]; contradiction). split; reflexivity.
Qed.

Lemma only_about_release_calls a l entries :
  only_about a (flat_map (release_call a l) entries).
Proof.
  intros b x Hb. rewrite count_retain_release_calls, count_release_release_calls.
  rewrite decide_False by (intros [? _]; contradiction). split; reflexivity.
Qed.

(** A failed precondition reports an error and does nothing else. *)
Lemma precond_reports {A} msg kind (v v' : A) w w' :
  kind = ENOMEM \/ kind = EFAULT \/ kind = EINVAL ->
  MIDIPrecondFailed msg kind v w = Returns v' w' ->
  MIDILogger w' = MIDILogger w /\ reports_error w w'.
Proof.
  intros Hk E. unfold MIDIPrecondFailed, MIDILogLocation in E.
  injection E as _ <-. unfold reports_error.
  destruct (decide _) as [Hlog|Hlog]; cbn.
  - repeat split; try assumption. right. eexists. split; [exact Hlog|reflexivity].
  - repeat split; try assumption. now left.
Qed.

Lemma precond_effect {A} a msg kind (v v' : A) w w' :
  kind = ENOMEM \/ kind = EFAULT \/ kind = EINVAL ->
  MIDIPrecondFailed msg kind v w = Returns v' w' ->
  op_effect a w w'.
Proof.
  intros Hk E. destruct (precond_reports _ _ _ _ _ _ Hk E) as [Hlog Hrep].
  exists []. pose proof Hrep as (Hheap & Hcalls & _).
  rewrite app_nil_r. repeat split; try assumption.
  - intros b _ _. now rewrite Hheap.
  - now right.
Qed.

(** A call that succeeds with hook calls [es] on behalf of [a] and a
    heap that differs at [a] at most. *)
Lemma success_effect a w w' es :
  calls w' = calls w ++ es -> only_about a es ->
  (forall b, b <> a -> b <> brk w -> heap w' !! b = heap w !! b) ->
  MIDILogger w' = MIDILogger w ->
  MIDIErrorNumber w' = MIDIErrorNumber w -> logged w' = logged w ->
  op_effect a w w'.
Proof.
  intros ? ? ? ? ? ?. exists es.
  split; [assumption|]. split; [assumption|]. split; [assumption|].
  split; [assumption|]. left. split; assumption.
Qed.

Lemma reports_effect a w w' :
  MIDILogger w' = MIDILogger w -> reports_error w w' -> op_effect a w w'.
Proof.
  intros Hlog Hrep. exists []. pose proof Hrep as (Hheap & Hcalls & _).
  rewrite app_nil_r.
  split; [assumption|]. split; [apply only_about_nil|].
  split; [intros b _ _; now rewrite Hheap|].
  split; [assumption|]. now right.
Qed.

Ltac precond_case E :=
  eapply precond_reports in E as [? ?]; [|tauto];
  apply reports_effect; assumption.

Lemma MIDIListCreate_effect ok r s w v w' :
  MIDIListCreate ok r s w = Returns v w' -> op_effect NULL w w'.
Proof.
  unfold MIDIListCreate, malloc. destruct ok; cbv beta iota.
  - destruct (decide (_ <> NULL)) as [Hb|Hb].
    + intros E. injection E as <- <-.
      apply (success_effect _ _ _ []); cbn; try reflexivity.
      * now rewrite app_nil_r.
      * apply only_about_nil.
      * intros b _ Hbrk. now rewrite lookup_insert_ne by congruence.
    + intros E. precond_case E.
  - rewrite decide_False by (intros E; now apply E).
    intros E. precond_case E.
Qed.

Lemma MIDIListDestroy_effect lst w v w' :
  MIDIListDestroy lst w = Returns v w' -> op_effect lst w w'.
Proof.
  destruct (decide (lst <> NULL)) as [Hl|Hl].
  - destruct (heap w !! lst) as [l|] eqn:Hlk.
    + rewrite (MIDIListDestroy_calls lst l) by assumption.
      intros E. injection E as <- <-.
      apply (success_effect _ _ _ (flat_map (release_call lst l) (data l)));
        cbn; try reflexivity.
      * apply only_about_release_calls.
      * intros b Hb _. now rewrite lookup_delete_ne by congruence.
    + unfold MIDIListDestroy. rewrite decide_True by assumption. rewrite Hlk.
      intros; discriminate.
  - unfold MIDIListDestroy. rewrite decide_False by assumption.
    intros E. precond_case E.
Qed.

Lemma refs_update_effect lst l n w :
  op_effect lst w
    (set_heap (<[lst := mkMIDIList n (retain l) (release l) (data l)]> (heap w)) w).
Proof.
  apply (success_effect _ _ _ []); cbn; try reflexivity.
  - now rewrite app_nil_r.
  - apply only_about_nil.
  - intros b Hb _. now rewrite lookup_insert_ne by congruence.
Qed.

Lemma MIDIListRetain_effect lst w v w' :
  MIDIListRetain lst w = Returns v w' -> op_effect lst w w'.
Proof.
  unfold MIDIListRetain.
  destruct (decide (lst <> NULL)) as [Hl|Hl].
  - destruct (heap w !! lst) as [l|] eqn:Hlk; [|intros; discriminate].
    destruct (decide _); [|intros; discriminate].
    intros E. injection E as <- <-. apply refs_update_effect.
  - intros E. precond_case E.
Qed.

(** [MIDIListRelease] of the last reference is [MIDIListDestroy]. *)
Lemma MIDIListRelease_last lst l w :
  lst <> NULL -> heap w !! lst = Some l -> refs l = 1 ->
  MIDIListRelease lst w = MIDIListDestroy lst w.
Proof.
  intros Hl Hlk Hr. unfold MIDIListRelease.
  rewrite decide_True by assumption. rewrite Hlk.
  rewrite decide_True by (rewrite Hr; unfold INT_MIN; lia).
  cbv zeta. rewrite decide_True by lia.
  rewrite (MIDIListDestroy_calls lst l w) by assumption.
  rewrite (MIDIListDestroy_calls lst
             (mkMIDIList (refs l - 1) (retain l) (release l) (data l))).
  - cbn. unfold release_call, set_heap, add_calls. cbn.
    now rewrite delete_insert_eq.
  - assumption.
  - cbn. now rewrite lookup_insert_eq.
Qed.

Lemma MIDIListRelease_other lst l w :
  lst <> NULL -> heap w !! lst = Some l -> INT_MIN < refs l -> refs l <> 1 ->
  MIDIListRelease lst w =
  Returns tt (set_heap
    (<[lst := mkMIDIList (refs l - 1) (retain l) (release l) (data l)]> (heap w)) w).
Proof.
  intros Hl Hlk Hmin Hr. unfold MIDIListRelease.
  rewrite decide_True by assumption. rewrite Hlk.
  rewrite decide_True by assumption.
  cbv zeta. now rewrite decide_False by lia.
Qed.

Lemma MIDIListRelease_effect lst w v w' :
  MIDIListRelease lst w = Returns v w' -> op_effect lst w w'.
Proof.
  destruct (decide (lst <> NULL)) as [Hl|Hl].
  - destruct (heap w !! lst) as [l|] eqn:Hlk.
    + destruct (decide (INT_MIN < refs l)) as [Hmin|Hmin].
      * destruct (decide (refs l = 1)) as [Hr|Hr].
        -- rewrite (MIDIListRelease_last lst l) by assumption.
           apply MIDIListDestroy_effect.
        -- rewrite (MIDIListRelease_other lst l) by assumption.
           intros E. injection E as <- <-. apply refs_update_effect.
      * unfold MIDIListRelease. rewrite decide_True by assumption. rewrite Hlk.
        rewrite decide_False by assumption. intros; discriminate.
    + unfold MIDIListRelease. rewrite decide_True by assumption. rewrite Hlk.
      intros; discriminate.
  - unfold MIDIListRelease. rewrite decide_False by assumption.
    intros E. precond_case E.
Qed.

Lemma MIDIListAdd_effect ok lst item w v w' :
  MIDIListAdd ok lst item w = Returns v w' -> op_effect lst w w'.
Proof.
  unfold MIDIListAdd.
  destruct (decide (lst <> NULL)) as [Hl|Hl]; [destruct (decide (item <> NULL)) as [Hi|Hi]|].
  - destruct ok; unfold malloc; cbv beta iota;
      [|rewrite decide_False by (intros E; now apply E); intros; discriminate].
    destruct (decide (_ <> NULL)); [|intros; discriminate]. simpl.
    destruct (heap w !! lst) as [l|] eqn:Hlk; [|intros; discriminate].
    rewrite item_retain_calls. intros E. injection E as <- <-.
    apply (success_effect _ _ _ (retain_call lst l item)); cbn; try reflexivity.
    + apply only_about_retain_call.
    + intros b Hb _. now rewrite lookup_insert_ne by congruence.
  - intros E. precond_case E.
  - intros E. precond_case E.
Qed.

Lemma MIDIListRemove_effect lst item w v w' :
  MIDIListRemove lst item w = Returns v w' -> op_effect lst w w'.
Proof.
  unfold MIDIListRemove.
  destruct (decide (lst <> NULL)) as [Hl|Hl]; [destruct (decide (item <> NULL)) as [Hi|Hi]|].
  - destruct (heap w !! lst) as [l|] eqn:Hlk; [|intros; discriminate].
    rewrite remove_entries_spec. intros E. injection E as <- <-.
    apply (success_effect _ _ _
             (flat_map (release_call lst l) (filter (fun e => e = item) (data l))));
      cbn; try reflexivity.
    + apply only_about_release_calls.
    + intros b Hb _. now rewrite lookup_insert_ne by congruence.
  - intros E. precond_case E.
  - intros E. precond_case E.
Qed.

Lemma MIDIListApply_effect lst info func w v w' :
  MIDIListApply lst info func w = Returns v w' -> op_effect lst w w'.
Proof.
  unfold MIDIListApply.
  destruct (decide (lst <> NULL)) as [Hl|Hl]; [destruct func as [f|]|].
  - destruct (heap w !! lst) as [l|]; [|intros; discriminate].
    destruct (apply_entries _ _ _ _); [|intros; discriminate].
    intros E. injection E as <- <-.
    apply (success_effect _ _ _ []); cbn; try reflexivity.
    + now rewrite app_nil_r.
    + apply only_about_nil.
  - intros E. precond_case E.
  - intros E. precond_case E.
Qed.

Lemma run_op_effect o w w' :
  run_op o w = Some w' -> op_effect (op_list o) w w'.
Proof.
  intros Hrun. destruct o; simpl in Hrun;
    apply world_of_Some in Hrun as [v Hv]; cbn [op_list].
  - eapply MIDIListCreate_effect; eassumption.
  - eapply MIDIListDestroy_effect; eassumption.
  - eapply MIDIListRetain_effect; eassumption.
  - eapply MIDIListRelease_effect; eassumption.
  - eapply MIDIListAdd_effect; eassumption.
  - eapply MIDIListRemove_effect; eassumption.
  - eapply MIDIListApply_effect; eassumption.
Qed.

(** *** Creation *)

(** X5: when the allocation succeeds, [MIDIListCreate] returns a pointer
    that is not [NULL] and was not in use; the new list has one
    reference, the two hooks given and no entry; every list that existed
    is as it was; nothing is reported and no hook is called. *)
Theorem MIDIListCreate_fresh (retain_ release_ : ptr) (w : World) :
  blocks_below_brk w ->
  exists lst w',
    MIDIListCreate true retain_ release_ w = Returns lst w' /\
    lst <> NULL /\ heap w !! lst = None /\
    heap w' = <[lst := mkMIDIList 1 retain_ release_ []]> (heap w) /\
    (forall b lb, heap w !! b = Some lb -> heap w' !! b = Some lb) /\
    silent w w' /\ calls w' = calls w /\ blocks_below_brk w'.
Proof.
  intros [Hb Hlive]. exists (brk w). eexists.
  unfold MIDIListCreate, malloc. cbv beta iota.
  rewrite decide_True by (unfold NULL; lia).
  split; [reflexivity|]. cbn.
  assert (Hfree : heap w !! brk w = None).
  { destruct (heap w !! brk w) as [l|] eqn:E; [|reflexivity].
    specialize (Hlive _ _ E). lia. }
  split; [unfold NULL; lia|]. split; [assumption|]. split; [reflexivity|].
  split; [|split; [split; reflexivity|split; [reflexivity|]]].
  - intros b lb Hlb. rewrite lookup_insert_ne; [assumption|congruence].
  - split; [cbn; lia|]. cbn. intros a l Ha.
    destruct (decide (brk w = a)) as [<-|Hne]; [lia|].
    rewrite lookup_insert_ne in Ha by assumption.
    specialize (Hlive _ _ Ha). lia.
Qed.

(** *** Applying a function *)

Lemma apply_entries_sum func info entries result :
  apply_entries func info entries result =
  if sums_fit func info entries result
  then Some (result + sum_results func info entries) else None.
Proof.
  revert result. induction entries as [|item next IH]; intros result; simpl.
  - f_equal. lia.
  - destruct (decide (item <> NULL)) as [Hi|Hi].
    + destruct (decide (INT_MIN <= result + func item info <= INT_MAX)) as [Hr|Hr].
      * rewrite IH.
        assert ((INT_MIN <=? result + func item info) = true) as -> by (apply Z.leb_le; lia).
        assert ((result + func item info <=? INT_MAX) = true) as -> by (apply Z.leb_le; lia).
        cbn. destruct (sums_fit _ _ _ _); [f_equal; lia|reflexivity].
      * destruct (Z.leb_spec INT_MIN (result + func item info));
          destruct (Z.leb_spec (result + func item info) INT_MAX); cbn;
          try reflexivity; lia.
    + rewrite IH. destruct (sums_fit _ _ _ _); [f_equal; lia|reflexivity].
Qed.

(** X6: on a valid list and a function that is not [NULL],
    [MIDIListApply] changes nothing and returns the sum of the results of
    the function on the stored items, as long as the running sum stays
    an [int] after every addition; as soon as one addition overflows the
    behaviour is undefined. *)
Theorem MIDIListApply_sum (lst info : ptr) (func : ptr -> ptr -> Z)
    (l : MIDIList) (w : World) :
  lst <> NULL -> heap w !! lst = Some l ->
  MIDIListApply lst info (Some func) w =
  if sums_fit func info (data l) 0
  then Returns (sum_results func info (data l)) w else Undefined.
Proof.
  intros Hl Hlk. unfold MIDIListApply.
  rewrite decide_True by assumption. rewrite Hlk, apply_entries_sum.
  destruct (sums_fit _ _ _ _); reflexivity.
Qed.

(** *** Adding and removing *)

Lemma MIDIListAdd_success lst item l w :
  blocks_below_brk w -> lst <> NULL -> item <> NULL -> heap w !! lst = Some l ->
  MIDIListAdd true lst item w =
  Returns 0 (set_heap
    (<[lst := mkMIDIList (refs l) (retain l) (release l) (item :: data l)]> (heap w))
    (add_calls (retain_call lst l item) (set_brk (brk w + 1) w))).
Proof.
  intros [Hb _] Hl Hi Hlk. unfold MIDIListAdd, malloc.
  rewrite !decide_True by assumption. cbv beta iota.
  rewrite decide_True by (unfold NULL; lia). simpl.
  rewrite Hlk, item_retain_calls. reflexivity.
Qed.

Lemma blocks_below_brk_add lst l l' es w :
  blocks_below_brk w -> heap w !! lst = Some l ->
  blocks_below_brk (set_heap (<[lst := l']> (heap w))
                      (add_calls es (set_brk (brk w + 1) w))).
Proof.
  intros [Hb Hlive] Hlk. split; cbn; [lia|].
  intros a la Ha. destruct (decide (lst = a)) as [<-|Hne].
  - specialize (Hlive _ _ Hlk). lia.
  - rewrite lookup_insert_ne in Ha by assumption.
    specialize (Hlive _ _ Ha). lia.
Qed.

Lemma MIDIListRemove_success lst item l w :
  lst <> NULL -> item <> NULL -> heap w !! lst = Some l ->
  MIDIListRemove lst item w =
  Returns 0 (set_heap
    (<[lst := mkMIDIList (refs l) (retain l) (release l)
                 (filter (fun e => e <> item) (data l))]> (heap w))
    (add_calls (flat_map (release_call lst l) (repeat item (stored item (data l)))) w)).
Proof.
  intros Hl Hi Hlk. unfold MIDIListRemove.
  rewrite !decide_True by assumption.
  rewrite Hlk, remove_entries_spec, filter_eq_repeat. reflexivity.
Qed.

(** X7: [MIDIListAdd] of an item followed by [MIDIListRemove] of the same
    item leaves the list without any entry for the item: the entries for
    other items are as before, in their order; the item is retained once
    and released once for the new entry and once more for every entry
    that held it before.  On a list that did not hold the item the two
    calls leave every list as it was. *)
Theorem MIDIListAdd_then_Remove (lst item : ptr) (l : MIDIList) (w : World) :
  blocks_below_brk w -> lst <> NULL -> item <> NULL -> heap w !! lst = Some l ->
  exists w1 w2,
    MIDIListAdd true lst item w = Returns 0 w1 /\
    MIDIListRemove lst item w1 = Returns 0 w2 /\
    heap w2 = <[lst := mkMIDIList (refs l) (retain l) (release l)
                         (filter (fun e => e <> item) (data l))]> (heap w) /\
    calls w2 = calls w ++ retain_call lst l item ++
               flat_map (release_call lst l) (repeat item (S (stored item (data l)))) /\
    (stored item (data l) = 0%nat -> heap w2 = heap w).
Proof.
  intros Hw Hl Hi Hlk. do 2 eexists.
  split; [apply MIDIListAdd_success; eassumption|].
  split.
  { apply MIDIListRemove_success; [assumption|assumption|].
    cbn. apply lookup_insert_eq. }
  cbn [heap calls set_heap add_calls set_brk data refs retain release].
  rewrite insert_insert_eq, stored_cons_eq.
  rewrite (filter_cons_False (fun e => e <> item)) by (intros Hn; now apply Hn).
  split; [reflexivity|]. split.
  - rewrite <- app_assoc. reflexivity.
  - intros Hnone. rewrite stored_none_filter by assumption.
    apply insert_id. rewrite Hlk. now destruct l.
Qed.

(** X8: removing an item a second time does nothing: the second
    [MIDIListRemove] returns 0 and leaves the process exactly as the
    first one left it, without any hook call. *)
Theorem MIDIListRemove_twice (lst item : ptr) (l : MIDIList) (w : World) :
  lst <> NULL -> item <> NULL -> heap w !! lst = Some l ->
  exists w1,
    MIDIListRemove lst item w = Returns 0 w1 /\
    MIDIListRemove lst item w1 = Returns 0 w1.
Proof.
  intros Hl Hi Hlk. eexists.
  split; [apply MIDIListRemove_success; eassumption|].
  rewrite (MIDIListRemove_success lst item
             (mkMIDIList (refs l) (retain l) (release l)
                (filter (fun e => e <> item) (data l))))
    by (try assumption; cbn; apply lookup_insert_eq).
  cbn [data refs retain release].
  assert (Hnone : stored item (filter (fun e => e <> item) (data l)) = 0%nat).
  { rewrite stored_filter_ne. now rewrite decide_True. }
  rewrite Hnone, (stored_none_filter _ _ Hnone). cbn [repeat flat_map].
  rewrite add_calls_nil. f_equal.
  unfold set_heap, add_calls. cbn. now rewrite insert_insert_eq.
Qed.

(** *** Reference counting *)

(** X9: [MIDIListRelease] of a list whose count is 1 is
    [MIDIListDestroy]: the list is freed and every entry released.  With
    any other count it only lowers the count by one: the list stays, no
    hook is called and nothing is reported; in particular a list whose
    count is already zero or below is never freed by it. *)
Theorem MIDIListRelease_count (lst : ptr) (l : MIDIList) (w : World) :
  lst <> NULL -> heap w !! lst = Some l -> INT_MIN < refs l ->
  (refs l = 1 -> MIDIListRelease lst w = MIDIListDestroy lst w) /\
  (refs l <> 1 ->
   MIDIListRelease lst w =
   Returns tt (set_heap
     (<[lst := mkMIDIList (refs l - 1) (retain l) (release l) (data l)]> (heap w)) w)).
Proof.
  intros Hl Hlk Hmin. split; intros Hr.
  - now apply (MIDIListRelease_last lst l).
  - now apply MIDIListRelease_other.
Qed.

(** X10: [MIDIListRetain] followed by [MIDIListRelease] gives back the
    process as it was, for a list whose count is not zero; on a list
    whose count is zero the release that follows the retain frees the
    list. *)
Theorem MIDIListRetain_then_Release (lst : ptr) (l : MIDIList) (w : World) :
  lst <> NULL -> heap w !! lst = Some l -> INT_MIN <= refs l < INT_MAX ->
  exists w1,
    MIDIListRetain lst w = Returns tt w1 /\
    (refs l <> 0 -> MIDIListRelease lst w1 = Returns tt w) /\
    (refs l = 0 -> MIDIListRelease lst w1 = MIDIListDestroy lst w1).
Proof.
  intros Hl Hlk Hr. eexists. split.
  { unfold MIDIListRetain. rewrite decide_True by assumption. rewrite Hlk.
    rewrite decide_True by lia. reflexivity. }
  split; intros Hz.
  - rewrite (MIDIListRelease_other lst
               (mkMIDIList (refs l + 1) (retain l) (release l) (data l)));
      try assumption; cbn; try lia; [|apply lookup_insert_eq].
    f_equal. rewrite insert_insert_eq. rewrite Z.add_simpl_r.
    rewrite insert_id by (rewrite Hlk; now destruct l).
    unfold set_heap; cbn. now destruct w.
  - apply (MIDIListRelease_last lst
             (mkMIDIList (refs l + 1) (retain l) (release l) (data l)));
      [assumption|cbn; apply lookup_insert_eq|cbn; lia].
Qed.

(** *** Destruction *)

(** X11: [MIDIListDestroy] frees the list whatever its reference count
    and leaves nothing retained: in a balanced process, for a list with
    both hooks, every item has afterwards been released as often as it
    was retained. *)
Theorem MIDIListDestroy_releases_all (lst : ptr) (l : MIDIList) (w : World) :
  hook_balance w -> lst <> NULL -> heap w !! lst = Some l ->
  retain l <> NULL -> release l <> NULL ->
  exists w',
    MIDIListDestroy lst w = Returns tt w' /\
    heap w' !! lst = None /\
    forall x, retained lst x w' = released lst x w'.
Proof.
  intros Hw Hl Hlk Hret Hrel. eexists.
  split; [apply MIDIListDestroy_calls; eassumption|].
  split; [cbn; apply lookup_delete_eq|].
  intros x. unfold retained, released. cbn. rewrite !count_if_app.
  rewrite count_retain_release_calls, count_release_release_calls.
  destruct Hw as (_ & _ & _ & Hbal).
  destruct (Hbal lst l x Hlk) as (_ & _ & _ & Hx).
  destruct (Hbal lst l NULL Hlk) as (Hnull & _).
  specialize (Hx Hret Hrel). unfold retained, released in Hx.
  destruct (decide (x = NULL)) as [->|Hxn].
  - rewrite decide_False by (intros (_ & Hn & _); now apply Hn). lia.
  - rewrite decide_True by (repeat split; assumption). lia.
Qed.

(** *** Error reports *)

(** X12: [MIDIListDestroy], [MIDIListRetain] and [MIDIListRelease] called
    with a [NULL] list return after storing [EFAULT] in
    [MIDIErrorNumber]; they free nothing, modify no list and call no
    hook. *)
Theorem void_functions_reject_NULL (w : World) :
  (exists w', MIDIListDestroy NULL w = Returns tt w' /\
     MIDIErrorNumber w' = EFAULT /\ heap w' = heap w /\ calls w' = calls w) /\
  (exists w', MIDIListRetain NULL w = Returns tt w' /\
     MIDIErrorNumber w' = EFAULT /\ heap w' = heap w /\ calls w' = calls w) /\
  (exists w', MIDIListRelease NULL w = Returns tt w' /\
     MIDIErrorNumber w' = EFAULT /\ heap w' = heap w /\ calls w' = calls w).
Proof.
  unfold MIDIListDestroy, MIDIListRetain, MIDIListRelease.
  rewrite !(decide_False (P := NULL <> NULL)) by (intros E; now apply E).
  unfold MIDIPrecondFailed, MIDILogLocation.
  repeat split; eexists; (split; [reflexivity|]);
    destruct (decide _); cbn; repeat split.
Qed.

(** X13: every call of list.c that returns either reports nothing
    ([MIDIErrorNumber] and the log are as before) or reports an error
    and then has modified no list and called no hook.  No call installs
    or removes the logger, and no call sets [MIDIErrorNumber] back to
    zero: a success after a failure leaves the old error number in
    place. *)
Theorem list_ops_report_or_succeed (o : op) (w w' : World) :
  run_op o w = Some w' ->
  MIDILogger w' = MIDILogger w /\
  (silent w w' \/ reports_error w w') /\
  (MIDIErrorNumber w <> 0 -> MIDIErrorNumber w' <> 0).
Proof.
  intros Hrun. apply run_op_effect in Hrun as (es & _ & _ & _ & Hlog & Hrep).
  split; [assumption|]. split; [assumption|].
  intros Hne. destruct Hrep as [[-> _]|(_ & _ & Hcode & _)]; [assumption|].
  pose proof ENOMEM_pos. pose proof EFAULT_pos. pose proof EINVAL_pos.
  destruct Hcode as [->| [->| ->]]; lia.
Qed.

(** *** Independence of lists *)

(** X14: a call of list.c leaves every list other than its argument as
    it was, entries, hooks and count, and makes no hook call on behalf
    of another list. *)
Theorem list_ops_frame (o : op) (w w' : World) (b : ptr) (lb : MIDIList) :
  blocks_below_brk w -> run_op o w = Some w' ->
  heap w !! b = Some lb -> b <> op_list o ->
  heap w' !! b = Some lb /\
  forall x, retained b x w' = retained b x w /\ released b x w' = released b x w.
Proof.
  intros [_ Hlive] Hrun Hb Hne.
  apply run_op_effect in Hrun as (es & Hcalls & Honly & Hheap & _).
  specialize (Hlive _ _ Hb). split.
  - rewrite Hheap; [assumption|assumption|lia].
  - intros x. unfold retained, released. rewrite Hcalls, !count_if_app.
    destruct (Honly b x Hne) as [-> ->]. lia.
Qed.

(** *** Stored items *)

Lemma stored_zero_not_in (x : ptr) (entries : list ptr) :
  stored x entries = 0%nat -> ~ In x entries.
Proof.
  induction entries as [|e next IH]; [intros _ []|].
  unfold stored in *; simpl.
  destruct (Z.eqb_spec x e) as [E|E]; [discriminate|].
  intros Hz [Hin|Hin]; [congruence|now apply IH].
Qed.

Lemma sum_results_no_NULL func info (entries : list ptr) :
  ~ In NULL entries ->
  sum_results func info entries = foldr (fun x acc => func x info + acc) 0 entries.
Proof.
  induction entries as [|e next IH]; [reflexivity|].
  intros Hn. simpl. rewrite decide_True by (intros ->; apply Hn; now left).
  rewrite IH; [reflexivity|]. intros Hin. apply Hn. now right.
Qed.

(** X15: whatever calls of list.c are made from the empty process, no
    list ever holds a [NULL] item; the test [item != NULL] in the loop of
    [MIDIListApply] therefore skips nothing, and the sum it forms runs
    over every entry. *)
Theorem no_NULL_item_stored (os : list op) (w : World) (a : ptr) (l : MIDIList)
    (func : ptr -> ptr -> Z) (info : ptr) :
  run_ops os world0 = Some w -> heap w !! a = Some l ->
  ~ In NULL (data l) /\
  sum_results func info (data l) = foldr (fun x acc => func x info + acc) 0 (data l).
Proof.
  intros Hrun Hl.
  assert (Hn : ~ In NULL (data l)).
  { apply stored_zero_not_in.
    pose proof (run_ops_balance _ _ _ hook_balance_world0 Hrun) as (_ & _ & _ & Hbal).
    apply (Hbal a l NULL Hl). }
  split; [assumption|]. now apply sum_results_no_NULL.
Qed.

(** *** Order of the entries *)

(** X16: items added one after the other are linked in front of the
    entries already there, the last one added first; each is retained in
    the order of the calls, and [MIDIListDestroy] releases them in the
    order of the chain, that is the items added last first and the
    entries that were there before after them. *)
Theorem MIDIListAdd_order (items : list ptr) (lst : ptr) (l : MIDIList) (w : World) :
  blocks_below_brk w -> lst <> NULL -> heap w !! lst = Some l ->
  Forall (fun item => item <> NULL) items ->
  exists w1 w2,
    run_ops (map (OpAdd true lst) items) w = Some w1 /\
    heap w1 !! lst =
      Some (mkMIDIList (refs l) (retain l) (release l) (rev items ++ data l)) /\
    calls w1 = calls w ++ flat_map (retain_call lst l) items /\
    MIDIListDestroy lst w1 = Returns tt w2 /\
    calls w2 = calls w1 ++ flat_map (release_call lst l) (rev items ++ data l).
Proof.
  intros Hw Hl Hlk Hitems.
  assert (Hadd : exists w1,
            run_ops (map (OpAdd true lst) items) w = Some w1 /\
            heap w1 !! lst =
              Some (mkMIDIList (refs l) (retain l) (release l) (rev items ++ data l)) /\
            calls w1 = calls w ++ flat_map (retain_call lst l) items).
  { revert l w Hw Hlk. induction Hitems as [|item items Hi _ IH]; intros l w Hw Hlk.
    - exists w. cbn. rewrite app_nil_r.
      split; [reflexivity|]. split; [|reflexivity]. rewrite Hlk. now destruct l.
    - cbn [map run_ops run_op].
      rewrite (MIDIListAdd_success lst item l) by assumption. cbn [world_of].
      edestruct (IH (mkMIDIList (refs l) (retain l) (release l) (item :: data l)))
        as (w1 & Hrun & Hheap & Hcalls).
      + eapply blocks_below_brk_add; eassumption.
      + cbn. apply lookup_insert_eq.
      + exists w1. split; [exact Hrun|]. split.
        * rewrite Hheap. cbn. now rewrite <- app_assoc.
        * rewrite Hcalls. cbn. now rewrite <- app_assoc. }
  destruct Hadd as (w1 & Hrun & Hheap & Hcalls).
  exists w1. eexists. split; [exact Hrun|]. split; [exact Hheap|].
  split; [exact Hcalls|].
  split; [apply MIDIListDestroy_calls; eassumption|].
  reflexivity.
Qed.

End ListMore.

(** *** The further properties on the process with one list *)

Section ListMoreWitnesses.
Import MIDIListC.

Lemma blocks_below_brk_world1 : blocks_below_brk world1.
Proof.
  destruct (hook_balance_world1 (H := linux_errno)) as (Hb & Hlive & _).
  split; assumption.
Qed.

Lemma MIDIListCreate_fresh_witness :
  exists lst w',
    MIDIListCreate true 300 0 world1 = Returns lst w' /\
    lst <> NULL /\ heap world1 !! lst = None /\
    heap w' = <[lst := mkMIDIList 1 300 0 []]> (heap world1) /\
    (forall b lb, heap world1 !! b = Some lb -> heap w' !! b = Some lb) /\
    silent world1 w' /\ calls w' = calls world1 /\ blocks_below_brk w'.
Proof. exact (MIDIListCreate_fresh 300 0 world1 blocks_below_brk_world1). Defined.

Lemma MIDIListApply_sum_witness :
  MIDIListApply 1 0 (Some (fun item _ => item)) world1 =
  if sums_fit (fun item _ => item) 0 (data (mkMIDIList 1 100 200 [7; 8; 7])) 0
  then Returns (sum_results (fun item _ => item) 0
                  (data (mkMIDIList 1 100 200 [7; 8; 7]))) world1
  else Undefined.
Proof.
  refine (MIDIListApply_sum 1 0 (fun item _ => item)
            (mkMIDIList 1 100 200 [7; 8; 7]) world1 _ _).
  - unfold NULL; lia.
  - reflexivity.
Defined.

(** The sum of the items of [world1], and a callback whose results
    overflow at the second entry. *)
Example MIDIListApply_world1 :
  MIDIListApply 1 0 (Some (fun item _ => item)) world1 = Returns 22 world1 /\
  MIDIListApply 1 0 (Some (fun _ _ => INT_MAX)) world1 = Undefined.
Proof. split; reflexivity. Qed.

Lemma MIDIListAdd_then_Remove_witness :
  exists w1 w2,
    MIDIListAdd true 1 9 world1 = Returns 0 w1 /\
    MIDIListRemove 1 9 w1 = Returns 0 w2 /\
    heap w2 = <[1 := mkMIDIList 1 100 200
                        (filter (fun e => e <> 9) [7; 8; 7])]> (heap world1) /\
    calls w2 = calls world1 ++ retain_call 1 (mkMIDIList 1 100 200 [7; 8; 7]) 9 ++
               flat_map (release_call 1 (mkMIDIList 1 100 200 [7; 8; 7]))
                 (repeat 9 (S (stored 9 [7; 8; 7]))) /\
    (stored 9 [7; 8; 7] = 0%nat -> heap w2 = heap world1).
Proof.
  refine (MIDIListAdd_then_Remove 1 9 (mkMIDIList 1 100 200 [7; 8; 7]) world1
            blocks_below_brk_world1 _ _ _).
  - unfold NULL; lia.
  - unfold NULL; lia.
  - reflexivity.
Defined.

Lemma MIDIListRemove_twice_witness :
  exists w1,
    MIDIListRemove 1 7 world1 = Returns 0 w1 /\
    MIDIListRemove 1 7 w1 = Returns 0 w1.
Proof.
  refine (MIDIListRemove_twice 1 7 (mkMIDIList 1 100 200 [7; 8; 7]) world1 _ _ _).
  - unfold NULL; lia.
  - unfold NULL; lia.
  - reflexivity.
Defined.

Lemma MIDIListRelease_count_witness :
  (refs (mkMIDIList 1 100 200 [7; 8; 7]) = 1 ->
   MIDIListRelease 1 world1 = MIDIListDestroy 1 world1) /\
  (refs (mkMIDIList 1 100 200 [7; 8; 7]) <> 1 ->
   MIDIListRelease 1 world1 =
   Returns tt (set_heap
     (<[1 := mkMIDIList (1 - 1) 100 200 [7; 8; 7]]> (heap world1)) world1)).
Proof.
  refine (MIDIListRelease_count 1 (mkMIDIList 1 100 200 [7; 8; 7]) world1 _ _ _).
  - unfold NULL; lia.
  - reflexivity.
  - unfold INT_MIN; cbn; lia.
Defined.

Lemma MIDIListRetain_then_Release_witness :
  exists w1,
    MIDIListRetain 1 world1 = Returns tt w1 /\
    (refs (mkMIDIList 1 100 200 [7; 8; 7]) <> 0 ->
     MIDIListRelease 1 w1 = Returns tt world1) /\
    (refs (mkMIDIList 1 100 200 [7; 8; 7]) = 0 ->
     MIDIListRelease 1 w1 = MIDIListDestroy 1 w1).
Proof.
  refine (MIDIListRetain_then_Release 1 (mkMIDIList 1 100 200 [7; 8; 7]) world1 _ _ _).
  - unfold NULL; lia.
  - reflexivity.
  - unfold INT_MIN, INT_MAX; cbn; lia.
Defined.

Lemma MIDIListDestroy_releases_all_witness :
  exists w',
    MIDIListDestroy 1 world1 = Returns tt w' /\
    heap w' !! 1 = None /\
    forall x, retained 1 x w' = released 1 x w'.
Proof.
  refine (MIDIListDestroy_releases_all 1 (mkMIDIList 1 100 200 [7; 8; 7]) world1
            hook_balance_world1 _ _ _ _).
  - unfold NULL; lia.
  - reflexivity.
  - unfold NULL; cbn; lia.
  - unfold NULL; cbn; lia.
Defined.

Lemma list_ops_report_or_succeed_witness :
  exists w',
    run_op (OpRemove 1 NULL) (set_errno 12 world1) = Some w' /\
    MIDILogger w' = MIDILogger (set_errno 12 world1) /\
    (silent (set_errno 12 world1) w' \/ reports_error (set_errno 12 world1) w') /\
    (MIDIErrorNumber (set_errno 12 world1) <> 0 -> MIDIErrorNumber w' <> 0).
Proof.
  eexists. split; [reflexivity|].
  refine (list_ops_report_or_succeed (OpRemove 1 NULL) (set_errno 12 world1) _ _).
  reflexivity.
Defined.

Lemma list_ops_frame_witness :
  exists w',
    run_op (OpCreate true 300 0) world1 = Some w' /\
    heap w' !! 1 = Some (mkMIDIList 1 100 200 [7; 8; 7]) /\
    forall x, retained 1 x w' = retained 1 x world1 /\
              released 1 x w' = released 1 x world1.
Proof.
  eexists. split; [reflexivity|].
  refine (list_ops_frame (OpCreate true 300 0) world1 _ 1
            (mkMIDIList 1 100 200 [7; 8; 7]) blocks_below_brk_world1 _ _ _).
  - reflexivity.
  - reflexivity.
  - cbn; unfold NULL; lia.
Defined.

Lemma no_NULL_item_stored_witness :
  exists w l,
    run_ops [OpCreate true 100 200; OpAdd true 1 7; OpAdd true 1 NULL; OpAdd true 1 8]
      world0 = Some w /\
    heap w !! 1 = Some l /\
    ~ In NULL (data l) /\
    sum_results (fun item _ => item) 0 (data l) =
      foldr (fun x acc => x + acc) 0 (data l).
Proof.
  do 2 eexists. split; [reflexivity|]. split; [reflexivity|].
  refine (no_NULL_item_stored
            [OpCreate true 100 200; OpAdd true 1 7; OpAdd true 1 NULL; OpAdd true 1 8]
            _ 1 _ (fun item _ => item) 0 _ _); reflexivity.
Defined.

Lemma MIDIListAdd_order_witness :
  exists w1 w2,
    run_ops (map (OpAdd true 1) [9; 10]) world1 = Some w1 /\
    heap w1 !! 1 = Some (mkMIDIList 1 100 200 (rev [9; 10] ++ [7; 8; 7])) /\
    calls w1 = calls world1 ++
               flat_map (retain_call 1 (mkMIDIList 1 100 200 [7; 8; 7])) [9; 10] /\
    MIDIListDestroy 1 w1 = Returns tt w2 /\
    calls w2 = calls w1 ++
               flat_map (release_call 1 (mkMIDIList 1 100 200 [7; 8; 7]))
                 (rev [9; 10] ++ [7; 8; 7]).
Proof.
  refine (MIDIListAdd_order [9; 10] 1 (mkMIDIList 1 100 200 [7; 8; 7]) world1
            blocks_below_brk_world1 _ _ _).
  - unfold NULL; lia.
  - reflexivity.
  - repeat constructor; unfold NULL; lia.
Defined.

(** The releases of that destruction: 10, 9, then 7, 8, 7. *)
Example MIDIListAdd_order_world1 :
  exists w1 w2,
    run_ops (map (OpAdd true 1) [9; 10]) world1 = Some w1 /\
    MIDIListDestroy 1 w1 = Returns tt w2 /\
    calls w2 = calls w1 ++
      [EvRelease 1 200 10; EvRelease 1 200 9; EvRelease 1 200 7;
       EvRelease 1 200 8; EvRelease 1 200 7].
Proof. do 2 eexists. repeat split. Qed.

End ListMoreWitnesses.
